(** * Network topology graph of the node visualization

    A shallow embedding of the two [NodeVisualization] components of the
    console plugin: the React Flow variant, whose effect builds a graph of
    nodes and edges and whose [getFlowPath] computes the highlighted path,
    and the older SVG variant, which draws guarded connectors between fixed
    columns.

    Conventions.
    - A JavaScript string is the sequence of its code units; the development
      covers code units below 256, which is all that interface, network and
      namespace names contain.  Rocq's [string] is used for them.
    - An optional field ([controller], [bridge], ...) is an [option]; [None]
      stands for [undefined].  The empty string is the only falsy string.
    - An array is a [list]; [push] appends at the end; [forEach] is a left
      fold over the array threading the mutable state.
    - A [Set<string>] is a [gset string]. *)

From Stdlib Require Import String Ascii List ZArith QArith Lia Bool.
From stdpp Require Import base option list gmap strings sorting relations.

Open Scope string_scope.
Open Scope list_scope.

Set Warnings "-clear-no-such-hyp".

(** ** JavaScript idioms *)

Module Js.

(** Truthiness of an optional string: [undefined] and [""] are falsy. *)
Definition truthy (v : option string) : bool :=
  match v with
  | Some s => negb (String.eqb s "")
  | None => false
  end.

(** [a || b] on optional strings. *)
Definition or (a b : option string) : option string :=
  if truthy a then a else b.

(** [v === s] for an optional string [v] and a string [s]. *)
Definition seq (v : option string) (s : string) : bool :=
  match v with
  | Some t => String.eqb t s
  | None => false
  end.

(** [o?.f] where [f] itself may be absent. *)
Definition chain {A B : Type} (o : option A) (f : A -> option B) : option B :=
  match o with
  | Some a => f a
  | None => None
  end.

(** [arr.forEach(body)] over a mutable state [S]. *)
Definition forEach {A S : Type} (body : A -> S -> S) (arr : list A) (s : S) : S :=
  fold_left (fun acc a => body a acc) arr s.

(** [arr.find(p)]. *)
Fixpoint find {A : Type} (p : A -> bool) (arr : list A) : option A :=
  match arr with
  | [] => None
  | a :: rest => if p a then Some a else find p rest
  end.

(** [s.split(sep)] for a one-character separator: never an empty array. *)
Fixpoint split (sep : ascii) (s : string) : list string :=
  match s with
  | EmptyString => [EmptyString]
  | String c rest =>
      if Ascii.eqb c sep then EmptyString :: split sep rest
      else match split sep rest with
           | piece :: pieces => String c piece :: pieces
           | [] => [String c EmptyString]
           end
  end.

(** White space removed by [trim], among the code units below 256. *)
Definition isWhiteSpace (c : ascii) : bool :=
  let n := nat_of_ascii c in
  (n =? 9)%nat || (n =? 10)%nat || (n =? 11)%nat || (n =? 12)%nat
  || (n =? 13)%nat || (n =? 32)%nat || (n =? 160)%nat.

Fixpoint trimStart (s : string) : string :=
  match s with
  | EmptyString => EmptyString
  | String c rest => if isWhiteSpace c then trimStart rest else s
  end.

Fixpoint trimEnd (s : string) : string :=
  match s with
  | EmptyString => EmptyString
  | String c rest =>
      match trimEnd rest with
      | EmptyString => if isWhiteSpace c then EmptyString else String c EmptyString
      | kept => String c kept
      end
  end.

Definition trim (s : string) : string := trimEnd (trimStart s).

(** [arr.join(sep)]. *)
Fixpoint join (sep : string) (arr : list string) : string :=
  match arr with
  | [] => ""
  | [x] => x
  | x :: rest => x +:+ sep +:+ join sep rest
  end.

(** The default comparison of [sort]: code unit order. *)
Definition str_le (a b : string) : Prop := String.leb a b = true.

#[global] Instance str_le_dec : RelDecision str_le.
Proof. intros a b. unfold str_le. apply _. Defined.

(** [arr.sort()] on strings. *)
Definition sort (arr : list string) : list string := merge_sort str_le arr.

(** Line terminators, which [.] does not match. *)
Definition isLineTerminator (c : ascii) : bool :=
  let n := nat_of_ascii c in (n =? 10)%nat || (n =? 13)%nat.

(** [(.*?)\]] matched at the head of [s]: the capture, when it matches. *)
Fixpoint lazyUntilClose (s : string) : option string :=
  match s with
  | EmptyString => None
  | String c rest =>
      if Ascii.eqb c "]" then Some EmptyString
      else if isLineTerminator c then None
      else option_map (String c) (lazyUntilClose rest)
  end.

(** [s.match(/\[(.*?)\]/)]: group 1 of the leftmost match, if any. *)
Fixpoint matchBracket (s : string) : option string :=
  match s with
  | EmptyString => None
  | String c rest =>
      if Ascii.eqb c "[" then
        match lazyUntilClose rest with
        | Some group => Some group
        | None => matchBracket rest
        end
      else matchBracket rest
  end.

End Js.

(** ** Input resources *)

Module Iface.
(** [patch] of an OVS patch port, an object, hence truthy when present. *)
Record Patch := { peer : string }.
(** The [vlan] and [mac-vlan] sub-objects. *)
Record Derived := { base_iface : option string }.

Record t := {
  name : string;
  type : string;
  state : string;
  controller : option string;
  master : option string;
  patch : option Patch;
  vlan : option Derived;
  mac_vlan : option Derived
}.
End Iface.

Module Mapping.
Record t := { localnet : string; bridge : option string }.
End Mapping.

Module Condition.
Record t := {
  type : string;
  status : string;
  message : option string
}.
End Condition.

Module Cudn.
Record LocalNet := { physicalNetworkName : option string }.
Record Network := {
  localNet : option LocalNet;   (* spec.network.localNet *)
  localnet : option LocalNet;   (* spec.network.localnet *)
  topology : option string
}.
Record Spec := { network : option Network }.
Record Status := { conditions : option (list Condition.t) }.
Record Metadata := { name : string }.
Record t := {
  metadata : Metadata;
  spec : option Spec;
  status : option Status
}.
End Cudn.

(** ** The graph (React Flow variant) *)

Definition nodeWidth : Z := 180.
Definition nodeHeight : Z := 60.

Record Style := {
  border : string;
  padding : Z;
  borderRadius : Z;
  width : Z;
  background : string
}.

(** What [addNode] receives as [data] and spreads next to the label. *)
Inductive Extra :=
| OriginalIface (iface : Iface.t)
| OriginalMapping (mapping : Mapping.t)
| OriginalCudn (cudn : Cudn.t)
| Namespaces (namespaces : list string).

Record Node := {
  id : string;
  label : string;
  data : Extra;
  position : Z * Z;
  style : Style;
  node_type : string
}.

Record Edge := {
  edge_id : string;
  source : string;
  target : string;
  edge_type : string;
  animated : bool;
  markerEnd : string
}.

Record Graph := { initialNodes : list Node; initialEdges : list Edge }.

Definition emptyGraph : Graph := {| initialNodes := []; initialEdges := [] |}.

(** The style chosen by the [switch (type)] of [addNode]. *)
Definition styleOf (type : string) : Style :=
  let mk b bg :=
    {| border := b; padding := 10; borderRadius := 5; width := nodeWidth;
       background := bg |} in
  if String.eqb type "ethernet" then mk "2px solid #0066CC" "#fff"
  else if String.eqb type "bond" then mk "2px solid #663399" "#fff"
  else if String.eqb type "vlan" then mk "2px solid #9933CC" "#fff"
  else if String.eqb type "bridge" then mk "2px solid #FF6600" "#fff"
  else if String.eqb type "logical" then mk "2px solid #0099CC" "#fff"
  else if String.eqb type "ovn-mapping" then mk "2px solid #009900" "#f0fff0"
  else if String.eqb type "cudn" then mk "2px solid #CC0099" "#fff0f5"
  else if String.eqb type "attachment" then mk "2px solid #F0AB00" "#fffff0"
  else mk "1px solid #777" "#fff".

(** The node object pushed by [addNode(id, label, type, data)]. *)
Definition mkNode (id label type : string) (data : Extra) : Node :=
  {| id := id; label := label; data := data; position := (0, 0)%Z;
     style := styleOf type; node_type := "default" |}.

Definition addNode (id label type : string) (data : Extra) (g : Graph) : Graph :=
  {| initialNodes := initialNodes g ++ [mkNode id label type data];
     initialEdges := initialEdges g |}.

(** The edge object pushed by [addEdge(source, target, animated)]. *)
Definition mkEdge (source target : string) (animated : bool) : Edge :=
  {| edge_id := source +:+ "-" +:+ target; source := source; target := target;
     edge_type := "smoothstep"; animated := animated;
     markerEnd := "arrowclosed" |}.

Definition addEdge (source target : string) (animated : bool) (g : Graph) : Graph :=
  {| initialNodes := initialNodes g;
     initialEdges := initialEdges g ++ [mkEdge source target animated] |}.

(** [if (v) addEdge(...)] for an optional string [v]. *)
Definition whenTruthy (v : option string) (k : string -> Graph -> Graph)
    (g : Graph) : Graph :=
  match v with
  | Some s => if Js.truthy v then k s g else g
  | None => g
  end.

(** *** Pass 1: interfaces *)

(** The [type] computed at the head of the interfaces loop. *)
Definition classify (interfaces : list Iface.t) (iface : Iface.t) : string :=
  if existsb (String.eqb (Iface.type iface)) ["linux-bridge"; "ovs-bridge"]
  then "bridge"
  else if String.eqb (Iface.type iface) "ovs-interface" then
    let isController :=
      existsb (fun i => Js.seq (Iface.controller i) (Iface.name iface)
                        || Js.seq (Iface.master i) (Iface.name iface))
              interfaces in
    if isController && negb (bool_decide (is_Some (Iface.patch iface)))
    then "bridge" else "logical"
  else Iface.type iface.

(** [iface.controller || iface.master]. *)
Definition masterOf (iface : Iface.t) : option string :=
  Js.or (Iface.controller iface) (Iface.master iface).

(** [iface.vlan?.['base-iface'] || iface['mac-vlan']?.['base-iface']]. *)
Definition baseIfaceOf (iface : Iface.t) : option string :=
  Js.or (Js.chain (Iface.vlan iface) Iface.base_iface)
        (Js.chain (Iface.mac_vlan iface) Iface.base_iface).

Definition interfaceStep (interfaces : list Iface.t) (iface : Iface.t)
    (g : Graph) : Graph :=
  let type := classify interfaces iface in
  let g := addNode (Iface.name iface) (Iface.name iface) type
                   (OriginalIface iface) g in
  let g := whenTruthy (masterOf iface)
                      (fun master => addEdge (Iface.name iface) master false) g in
  whenTruthy (baseIfaceOf iface)
             (fun baseIface => addEdge baseIface (Iface.name iface) false) g.

(** *** Pass 2: bridge mappings *)

Definition mappingStep (mapping : Mapping.t) (g : Graph) : Graph :=
  let ovnNodeId := "ovn-" +:+ Mapping.localnet mapping in
  let g := addNode ovnNodeId ("OVN: " +:+ Mapping.localnet mapping)
                   "ovn-mapping" (OriginalMapping mapping) g in
  whenTruthy (Mapping.bridge mapping)
             (fun bridge => addEdge bridge ovnNodeId false) g.

(** *** Pass 3: CUDNs *)

(** [cudn.spec?.network?.localNet?.physicalNetworkName
     || cudn.spec?.network?.localnet?.physicalNetworkName]. *)
Definition camelName (cudn : Cudn.t) : option string :=
  Js.chain (Js.chain (Js.chain (Cudn.spec cudn) Cudn.network) Cudn.localNet)
           Cudn.physicalNetworkName.

Definition lowerName (cudn : Cudn.t) : option string :=
  Js.chain (Js.chain (Js.chain (Cudn.spec cudn) Cudn.network) Cudn.localnet)
           Cudn.physicalNetworkName.

Definition physicalNetworkNameOf (cudn : Cudn.t) : option string :=
  Js.or (camelName cudn) (lowerName cudn).

Definition cudnName (cudn : Cudn.t) : string := Cudn.name (Cudn.metadata cudn).

Definition cudnStep (cudn : Cudn.t) (g : Graph) : Graph :=
  let cudnNodeId := "cudn-" +:+ cudnName cudn in
  let g := addNode cudnNodeId (cudnName cudn) "cudn" (OriginalCudn cudn) g in
  whenTruthy (physicalNetworkNameOf cudn)
             (fun physicalNetworkName =>
                addEdge ("ovn-" +:+ physicalNetworkName) cudnNodeId false) g.

(** *** Pass 4: attachments *)

(** [cudn.status?.conditions?.find(c => c.type === 'NetworkCreated'
     && c.status === 'True')]. *)
Definition findCondition (cudn : Cudn.t) : option Condition.t :=
  Js.chain (Js.chain (Cudn.status cudn) Cudn.conditions)
           (Js.find (fun c => String.eqb (Condition.type c) "NetworkCreated"
                              && String.eqb (Condition.status c) "True")).

(** [match[1].split(',').map(ns => ns.trim()).sort()]. *)
Definition parseNamespaces (group : string) : list string :=
  Js.sort (map Js.trim (Js.split "," group)).

(** The label template of the attachment node. *)
Definition attachmentLabel (namespaces : list string) : string :=
  "NS: " +:+ (if (3 <? length namespaces)%nat
             then Js.join ", " (firstn 3 namespaces) +:+ "..."
             else Js.join ", " namespaces).

Definition attachmentStep (cudn : Cudn.t) (g : Graph) : Graph :=
  match findCondition cudn with
  | Some condition =>
      match Condition.message condition with
      | Some message =>
          if Js.truthy (Some message) then
            match Js.matchBracket message with
            | Some group =>
                if Js.truthy (Some group) then
                  let namespaces := parseNamespaces group in
                  if (0 <? length namespaces)%nat then
                    let attachmentNodeId := "attachment-" +:+ cudnName cudn in
                    let label := attachmentLabel namespaces in
                    let g := addNode attachmentNodeId label "attachment"
                                     (Namespaces namespaces) g in
                    addEdge ("cudn-" +:+ cudnName cudn) attachmentNodeId true g
                  else g
                else g
            | None => g
            end
          else g
      | None => g
      end
  | None => g
  end.

(** *** The effect body up to the layout call *)

Definition buildGraph (interfaces : list Iface.t)
    (bridgeMappings : list Mapping.t) (cudns : list Cudn.t) : Graph :=
  let g := Js.forEach (interfaceStep interfaces) interfaces emptyGraph in
  let g := Js.forEach mappingStep bridgeMappings g in
  let g := Js.forEach cudnStep cudns g in
  Js.forEach attachmentStep cudns g.

(** ** Path traversal helper (React Flow variant) *)

Inductive Direction := upstream | downstream.

(** The two sets captured by [traverse].  [expanded] is ghost state: the node
    ids for which the body ran past the [visited] guard, in order.  No branch
    reads it. *)
Record Walk := {
  path : gset string;
  visited : gset string;
  expanded : list string
}.

(** The predicate of [edges.filter] in [traverse]. *)
Definition connected (direction : Direction) (nodeId : string) (edge : Edge) : bool :=
  match direction with
  | upstream => String.eqb (target edge) nodeId
  | downstream => String.eqb (source edge) nodeId
  end.

Definition nextNodeId (direction : Direction) (edge : Edge) : string :=
  match direction with
  | upstream => source edge
  | downstream => target edge
  end.

(** [visited.add(nodeId); path.add(nodeId)]. *)
Definition enter (nodeId : string) (w : Walk) : Walk :=
  {| path := path w ∪ {[nodeId]};
     visited := visited w ∪ {[nodeId]};
     expanded := expanded w ++ [nodeId] |}.

(** [path.add(edge.id)]. *)
Definition addToPath (x : string) (w : Walk) : Walk :=
  {| path := path w ∪ {[x]}; visited := visited w; expanded := expanded w |}.

(** [forEach] whose body may run out of fuel. *)
Fixpoint forEachM {A S : Type} (body : A -> S -> option S) (arr : list A) (s : S)
    : option S :=
  match arr with
  | [] => Some s
  | a :: rest =>
      match body a s with
      | Some s' => forEachM body rest s'
      | None => None
      end
  end.

(** [traverse(nodeId, direction)]; the recursion is bounded by [fuel]. *)
Fixpoint traverse (fuel : nat) (edges : list Edge) (nodeId : string)
    (direction : Direction) (w : Walk) : option Walk :=
  match fuel with
  | O => None
  | S fuel =>
      if bool_decide (nodeId ∈ visited w) then Some w
      else
        let w := enter nodeId w in
        let connectedEdges := List.filter (connected direction nodeId) edges in
        forEachM (fun edge w =>
                    let w := addToPath (edge_id edge) w in
                    traverse fuel edges (nextNodeId direction edge) direction w)
                 connectedEdges w
  end.

Definition startWalk : Walk := {| path := ∅; visited := ∅; expanded := [] |}.

(** [visited.clear()] between the two traversals. *)
Definition clearVisited (w : Walk) : Walk :=
  {| path := path w; visited := ∅; expanded := [] |}.

Definition getFlowPathWith (fuel : nat) (edges : list Edge) (startNodeId : string)
    : option (gset string) :=
  match traverse fuel edges startNodeId upstream startWalk with
  | Some up =>
      match traverse fuel edges startNodeId downstream (clearVisited up) with
      | Some down => Some (path down)
      | None => None
      end
  | None => None
  end.

(** Every nested call enters a node id not entered before, and the ids that
    can be entered are the start and one end of each edge. *)
Definition fuelFor (edges : list Edge) : nat := S (S (length edges)).

Definition getFlowPath (edges : list Edge) (startNodeId : string)
    : option (gset string) :=
  getFlowPathWith (fuelFor edges) edges startNodeId.

(** ** The SVG variant: fixed columns and guarded connectors *)

Module Svg.

Definition padding : Z := 50.
Definition itemHeight : Z := 80.
Definition itemWidth : Z := 160.
Definition colSpacing : Z := 220.

(** [new Set(interfaces.map(i => i.controller || i.master).filter(Boolean))]. *)
Definition controllerNames (interfaces : list Iface.t) : gset string :=
  list_to_set
    (omap (fun i => if Js.truthy (masterOf i) then masterOf i else None)
          interfaces).

Definition isBridge (interfaces : list Iface.t) (iface : Iface.t) : bool :=
  if existsb (String.eqb (Iface.type iface)) ["linux-bridge"; "ovs-bridge"]
  then true
  else if String.eqb (Iface.type iface) "ovs-interface"
          && bool_decide (Iface.name iface ∈ controllerNames interfaces)
          && negb (bool_decide (is_Some (Iface.patch iface)))
  then true
  else false.

Definition ofType (type : string) (iface : Iface.t) : bool :=
  String.eqb (Iface.type iface) type.

(** [names.forEach((n, index) => nodePositions[n] = { x, y: ... })],
    with [index] counted from [index0]. *)
Fixpoint placeColumn (x : Z) (index0 : Z) (names : list string)
    (nodePositions : gmap string (Z * Z)) : gmap string (Z * Z) :=
  match names with
  | [] => nodePositions
  | n :: rest =>
      placeColumn x (index0 + 1) rest
        (<[n := (x, padding + index0 * (itemHeight + 20))%Z]> nodePositions)
  end.

(** The own properties of [nodePositions] after the six placement loops.
    What a lookup [nodePositions[k]] finds beyond them is [getPosition]. *)
Definition nodePositions (interfaces : list Iface.t)
    (bridgeMappings : list Mapping.t) (cudns : list Cudn.t)
    : gmap string (Z * Z) :=
  let column (k : Z) names := placeColumn (padding + colSpacing * k)%Z 0 names in
  let ethInterfaces := List.filter (ofType "ethernet") interfaces in
  let bondInterfaces := List.filter (ofType "bond") interfaces in
  let bridgeInterfaces := List.filter (isBridge interfaces) interfaces in
  let logicalInterfaces :=
    List.filter (fun i => ofType "ovs-interface" i && negb (isBridge interfaces i))
                interfaces in
  let p := placeColumn padding 0 (map Iface.name ethInterfaces) ∅ in
  let p := column 1%Z (map Iface.name bondInterfaces) p in
  let p := column 2%Z (map Iface.name bridgeInterfaces) p in
  let p := column 3%Z (map Iface.name logicalInterfaces) p in
  let p := column 4%Z (map (fun m => "ovn-" +:+ Mapping.localnet m) bridgeMappings) p in
  column 5%Z (map (fun c => "cudn-" +:+ cudnName c) cudns) p.

(** The names every plain object answers to through [Object.prototype]. *)
Definition prototypeMembers : list string :=
  ["constructor"; "hasOwnProperty"; "isPrototypeOf"; "propertyIsEnumerable";
   "toLocaleString"; "toString"; "valueOf"; "__proto__";
   "__defineGetter__"; "__defineSetter__"; "__lookupGetter__";
   "__lookupSetter__"].

(** What [nodePositions[key]] evaluates to when it is not [undefined]: a
    stored position object, or another truthy value, on which [x] and [y]
    read [undefined]. *)
Inductive Found :=
| Placed (x y : Z)
| Inherited.

(** [nodePositions[key]] on the plain object [nodePositions]: the own
    property when there is one, otherwise what the prototype chain gives.
    An assignment to the key [__proto__] puts the position object in the
    chain, where its [x] and [y] are then found under these two keys. *)
Definition getPosition (nodePositions : gmap string (Z * Z)) (key : string)
    : option Found :=
  match nodePositions !! key with
  | Some (x, y) => Some (Placed x y)
  | None =>
      if bool_decide (key ∈ prototypeMembers) then Some Inherited
      else if bool_decide (key ∈ ["x"; "y"])
              && bool_decide (is_Some (nodePositions !! "__proto__"))
      then Some Inherited
      else None
  end.

(** [found.x] and [found.y]: [None] stands for [undefined], and for the
    [NaN] a sum with it gives. *)
Definition xOf (found : Found) : option Z :=
  match found with
  | Placed x _ => Some x
  | Inherited => None
  end.

Definition yOf (found : Found) : option Z :=
  match found with
  | Placed _ y => Some y
  | Inherited => None
  end.

Record Line := { key : string;
                 x1 : option Z; y1 : option Z; x2 : option Z; y2 : option Z;
                 startNode : string; endNode : string }.

(** [renderConnector(startNode, endNode)]: [None] is the [null] returned
    when either lookup is falsy. *)
Definition renderConnector (pos : gmap string (Z * Z)) (startNode endNode : string)
    : option Line :=
  match getPosition pos startNode, getPosition pos endNode with
  | Some start, Some end_ =>
      Some {| key := startNode +:+ "-" +:+ endNode;
              x1 := option_map (fun x => x + itemWidth)%Z (xOf start);
              y1 := option_map (fun y => y + itemHeight / 2)%Z (yOf start);
              x2 := xOf end_;
              y2 := option_map (fun y => y + itemHeight / 2)%Z (yOf end_);
              startNode := startNode; endNode := endNode |}
  | _, _ => None
  end.

(** [if (v && nodePositions[idOf(v)]) return k(v); return null]. *)
Definition guarded (pos : gmap string (Z * Z)) (v : option string)
    (idOf : string -> string) (k : string -> option Line) : option Line :=
  match v with
  | Some s =>
      if Js.truthy v && bool_decide (is_Some (getPosition pos (idOf s)))
      then k s else None
  | None => None
  end.

(** The three connector loops of the [svg] element. *)
Definition connectors (interfaces : list Iface.t)
    (bridgeMappings : list Mapping.t) (cudns : list Cudn.t) : list (option Line) :=
  let pos := nodePositions interfaces bridgeMappings cudns in
  map (fun iface =>
         guarded pos (masterOf iface) (fun master => master)
                 (fun master => renderConnector pos (Iface.name iface) master))
      interfaces
  ++ map (fun mapping =>
            guarded pos (Mapping.bridge mapping) (fun bridge => bridge)
                    (fun bridge =>
                       renderConnector pos bridge
                                       ("ovn-" +:+ Mapping.localnet mapping)))
         bridgeMappings
  ++ map (fun cudn =>
            guarded pos (physicalNetworkNameOf cudn)
                    (fun physicalNetworkName => "ovn-" +:+ physicalNetworkName)
                    (fun physicalNetworkName =>
                       renderConnector pos ("cudn-" +:+ cudnName cudn)
                                       ("ovn-" +:+ physicalNetworkName)))
         cudns.

End Svg.

(** * Vocabulary of the statements *)

(** ** Steps that only append *)

Definition appendGraph (g d : Graph) : Graph :=
  {| initialNodes := initialNodes g ++ initialNodes d;
     initialEdges := initialEdges g ++ initialEdges d |}.

(** A step that leaves what is already in the graph untouched and whose
    additions do not depend on it. *)
Definition appending (step : Graph -> Graph) : Prop :=
  forall g, step g = appendGraph g (step emptyGraph).

(** What a step adds to the graph. *)
Definition nodesAdded (step : Graph -> Graph) : list Node :=
  initialNodes (step emptyGraph).
Definition edgesAdded (step : Graph -> Graph) : list Edge :=
  initialEdges (step emptyGraph).

(** The edge an [if (v) addEdge(...)] statement adds. *)
Definition edgeWhen (v : option string) (mk : string -> Edge) : list Edge :=
  match v with
  | Some s => if Js.truthy v then [mk s] else []
  | None => []
  end.

(** 1 when [if (v)] lets the statement run, 0 otherwise. *)
Definition fires (v : option string) : nat := if Js.truthy v then 1 else 0.

Definition nodeIds (g : Graph) : list string := map id (initialNodes g).

(** Some interface of the collection, the interface itself included, names
    [name] as its [controller] or [master]. *)
Definition namedAsController (interfaces : list Iface.t) (name : string) : Prop :=
  exists i, In i interfaces
            /\ (Iface.controller i = Some name \/ Iface.master i = Some name).

(** ** The attachment pass *)

(** The captured group for which the attachment pass creates a node: the
    guards [condition && condition.message] and [match && match[1]]. *)
Definition attachmentGroup (cudn : Cudn.t) : option string :=
  match findCondition cudn with
  | Some condition =>
      match Condition.message condition with
      | Some message =>
          if Js.truthy (Some message) then
            match Js.matchBracket message with
            | Some group => if Js.truthy (Some group) then Some group else None
            | None => None
            end
          else None
      | None => None
      end
  | None => None
  end.

(** The node and the edge created for a captured group. *)
Definition attachmentNode (cudn : Cudn.t) (namespaces : list string) : Node :=
  mkNode ("attachment-" +:+ cudnName cudn) (attachmentLabel namespaces)
         "attachment" (Namespaces namespaces).

Definition attachmentEdge (cudn : Cudn.t) : Edge :=
  mkEdge ("cudn-" +:+ cudnName cudn) ("attachment-" +:+ cudnName cudn) true.

(** ** The traversal as a relation *)

Section TraversalSemantics.
Context (edges : list Edge) (direction : Direction).

(** The end of an edge at which the traversal picks it up. *)
Definition anchor (edge : Edge) : string :=
  match direction with
  | upstream => target edge
  | downstream => source edge
  end.

(** One move of the traversal, from a node to the far end of one of its
    connected edges. *)
Definition moves (a b : string) : Prop :=
  exists e, In e edges /\ anchor e = a /\ nextNodeId direction e = b.

(** Entered by this run: in [visited] afterwards and not before. *)
Definition fresh (w w' : Walk) (m : string) : Prop :=
  m ∈ visited w' /\ m ∉ visited w.

(** The calls of [traverse] and of its [forEach] loop as a relation
    between the sets before and after. *)
Inductive Run : string -> Walk -> Walk -> Prop :=
| Run_seen n w :
    n ∈ visited w -> Run n w w
| Run_enter n w w' :
    n ∉ visited w ->
    Loop n (List.filter (connected direction n) edges) (enter n w) w' ->
    Run n w w'
with Loop : string -> list Edge -> Walk -> Walk -> Prop :=
| Loop_done n w :
    Loop n [] w w
| Loop_next n e rest w w1 w' :
    Run (nextNodeId direction e) (addToPath (edge_id e) w) w1 ->
    Loop n rest w1 w' ->
    Loop n (e :: rest) w w'.

Scheme Run_mut := Minimality for Run Sort Prop
  with Loop_mut := Minimality for Loop Sort Prop.
Combined Scheme Run_Loop_ind from Run_mut, Loop_mut.

(** The id of some edge whose anchor satisfies [P]. *)
Definition idAnchoredIn (P : string -> Prop) (y : string) : Prop :=
  exists e, In e edges /\ edge_id e = y /\ P (anchor e).

(** The ids a traversal from [start] can be called for, and how many of
    them are still outside [visited]. *)
Definition candidates (start : string) : list string :=
  start :: map (nextNodeId direction) edges.

Definition unvisited (start : string) (w : Walk) : nat :=
  length (List.filter (fun c => negb (bool_decide (c ∈ visited w)))
                      (candidates start)).

End TraversalSemantics.

(** ** Directed paths *)

(** Some edge leads from [a] to [b]. *)
Definition edgeTo (edges : list Edge) (a b : string) : Prop :=
  exists e, In e edges /\ source e = a /\ target e = b.

(** A directed path, possibly of length zero, from [a] to [b]. *)
Definition pathBetween (edges : list Edge) : string -> string -> Prop :=
  rtc (edgeTo edges).

(** ** Concrete inputs *)

Definition plainIface (name type : string) (controller : option string) : Iface.t :=
  {| Iface.name := name; Iface.type := type; Iface.state := "up";
     Iface.controller := controller; Iface.master := None; Iface.patch := None;
     Iface.vlan := None; Iface.mac_vlan := None |}.

Definition vlanIface (name baseIface : string) : Iface.t :=
  {| Iface.name := name; Iface.type := "vlan"; Iface.state := "up";
     Iface.controller := None; Iface.master := None; Iface.patch := None;
     Iface.vlan := Some {| Iface.base_iface := Some baseIface |};
     Iface.mac_vlan := None |}.

Definition localnetCudn (name : string) (camel lower : option string)
    (conditions : list Condition.t) : Cudn.t :=
  let ln := option_map (fun p => {| Cudn.physicalNetworkName := Some p |}) in
  {| Cudn.metadata := {| Cudn.name := name |};
     Cudn.spec := Some {| Cudn.network :=
                            Some {| Cudn.localNet := ln camel;
                                    Cudn.localnet := ln lower;
                                    Cudn.topology := Some "Localnet" |} |};
     Cudn.status := Some {| Cudn.conditions := Some conditions |} |}.

Definition networkCreated (message : string) : Condition.t :=
  {| Condition.type := "NetworkCreated"; Condition.status := "True";
     Condition.message := Some message |}.

(** An OVS bridge [br0] whose only port is its internal port of the same
    name; a mapping to a bridge that is not among the interfaces; a network
    on a physical network that has no mapping. *)
Definition eth0 : Iface.t := plainIface "eth0" "ethernet" None.
Definition br0_internal_port : Iface.t := plainIface "br0" "ovs-interface" (Some "br0").
Definition physnet1_on_missing_bridge : Mapping.t :=
  {| Mapping.localnet := "physnet1"; Mapping.bridge := Some "br-missing" |}.
Definition net_a_on_physnet2 : Cudn.t :=
  localnetCudn "net-a" (Some "physnet2") None [].
Definition net_b_lowercase : Cudn.t :=
  localnetCudn "net-b" None (Some "physnet1") [].
Definition net_c_both : Cudn.t :=
  localnetCudn "net-c" (Some "physnet1") (Some "physnet9")
               [networkCreated "NetworkAttachmentDefinition has been created in following namespaces: [ns-b, ns-a]"].
Definition net_d_many : Cudn.t :=
  localnetCudn "net-d" None None [networkCreated "[d, c ,b,a, e]"].

Definition net_e_empty_list : Cudn.t :=
  localnetCudn "net-e" (Some "physnet1") None
               [networkCreated "created in following namespaces: []"].

(** Networks whose message brackets only white space, or only a comma, and
    one whose namespace list comes behind an empty bracket pair. *)
Definition net_f_blank_list : Cudn.t :=
  localnetCudn "net-f" None None
               [networkCreated "created in following namespaces: [ ]"].
Definition net_g_lone_comma : Cudn.t :=
  localnetCudn "net-g" None None
               [networkCreated "created in following namespaces: [,]"].

(** An interface whose controller is named like a member of
    [Object.prototype]. *)
Definition eth0_on_constructor : Iface.t :=
  plainIface "eth0" "ethernet" (Some "constructor").

(** Interfaces [br], [ex] and [br-ex], where [br] names [ex] as controller. *)
Definition brExInterfaces : list Iface.t :=
  [plainIface "br" "ethernet" (Some "ex"); plainIface "ex" "bond" None;
   plainIface "br-ex" "ovs-bridge" None].

(** Two nodes on a cycle: each traversal enters each of them once. *)
Definition cycleEdges : list Edge := [mkEdge "a" "b" false; mkEdge "b" "a" false].

(** ** The nodes of each pass *)

Definition interfaceNode (interfaces : list Iface.t) (iface : Iface.t) : Node :=
  mkNode (Iface.name iface) (Iface.name iface) (classify interfaces iface)
         (OriginalIface iface).

Definition mappingNode (mapping : Mapping.t) : Node :=
  mkNode ("ovn-" +:+ Mapping.localnet mapping)
         ("OVN: " +:+ Mapping.localnet mapping) "ovn-mapping"
         (OriginalMapping mapping).

Definition cudnNode (cudn : Cudn.t) : Node :=
  mkNode ("cudn-" +:+ cudnName cudn) (cudnName cudn) "cudn" (OriginalCudn cudn).

Definition attachmentNodes (cudns : list Cudn.t) : list Node :=
  flat_map (fun c => match attachmentGroup c with
                     | Some group => [attachmentNode c (parseNamespaces group)]
                     | None => []
                     end) cudns.

(** The types for which the [switch] of [addNode] has a case. *)
Definition styledTypes : list string :=
  ["ethernet"; "bond"; "vlan"; "bridge"; "logical"; "ovn-mapping"; "cudn";
   "attachment"].

(** The style [addNode] starts from. *)
Definition plainStyle : Style :=
  {| border := "1px solid #777"; padding := 10; borderRadius := 5;
     width := nodeWidth; background := "#fff" |}.

(** Every name an input refers to is there: each [controller || master] and
    base interface names an interface, each [bridge] names an interface and
    each physical network name is the [localnet] of a mapping. *)
Definition referencesResolve (interfaces : list Iface.t)
    (bridgeMappings : list Mapping.t) (cudns : list Cudn.t) : Prop :=
  (forall i s, In i interfaces ->
               (masterOf i = Some s \/ baseIfaceOf i = Some s) -> s <> "" ->
               In s (map Iface.name interfaces))
  /\ (forall m s, In m bridgeMappings -> Mapping.bridge m = Some s -> s <> "" ->
                  In s (map Iface.name interfaces))
  /\ (forall c s, In c cudns -> physicalNetworkNameOf c = Some s -> s <> "" ->
                  In s (map Mapping.localnet bridgeMappings)).

(** No interface is named like a node the later passes create. *)
Definition namesAvoidSynthesizedIds (interfaces : list Iface.t)
    (bridgeMappings : list Mapping.t) (cudns : list Cudn.t) : Prop :=
  forall i, In i interfaces ->
    (forall m, In m bridgeMappings ->
               Iface.name i <> "ovn-" +:+ Mapping.localnet m)
    /\ (forall c, In c cudns ->
                  Iface.name i <> "cudn-" +:+ cudnName c
                  /\ Iface.name i <> "attachment-" +:+ cudnName c).

(** Scenario A+B+C of the specification. *)
Definition scenarioInterfaces : list Iface.t :=
  [plainIface "eth0" "ethernet" (Some "br0"); plainIface "br0" "ovs-bridge" None].
Definition scenarioMappings : list Mapping.t :=
  [{| Mapping.localnet := "physnet1"; Mapping.bridge := Some "br0" |}].
Definition scenarioCudns : list Cudn.t :=
  [localnetCudn "net-a" (Some "physnet1") None
                [networkCreated "created in following namespaces: [ns-b, ns-a]"]].

(** ** Characters of a string *)

(** Every character of [s] satisfies [P]. *)
Definition allChars (P : ascii -> Prop) (s : string) : Prop :=
  Forall P (list_ascii_of_string s).

(** How many times [c] occurs in [s]. *)
Fixpoint occurrences (c : ascii) (s : string) : nat :=
  match s with
  | EmptyString => 0
  | String d rest => (if Ascii.eqb d c then 1 else 0) + occurrences c rest
  end.

(** A character the capture of the bracket pattern can hold. *)
Definition capturable (c : ascii) : Prop :=
  c <> "]"%char /\ Js.isLineTerminator c = false.

(** A name as a controller writes it into the bracketed list: no white space
    around it, no comma, no closing bracket, no line break. *)
Definition listedName (s : string) : Prop :=
  Js.trim s = s /\ allChars (fun c => c <> ","%char /\ capturable c) s.

(** A CUDN whose only condition is [NetworkCreated]/[True] with [message]. *)
Definition cudnWithMessage (name message : string) : Cudn.t :=
  localnetCudn name None None [networkCreated message].

(** ** Interaction state and rendering (React Flow variant) *)

(** [v || d] where [d] is a string: the value rendered. *)
Definition orElse (v : option string) (d : string) : string :=
  match v with
  | Some s => if Js.truthy v then s else d
  | None => d
  end.

(** The object kept in [activeNode]: the [original] record of the clicked
    node or, for a node without one, the object
    [{ name: label, type: ..., ...node.data }]. *)
Inductive ActiveNode :=
| ActiveIface (iface : Iface.t)
| ActiveMapping (mapping : Mapping.t)
| ActiveCudn (cudn : Cudn.t)
| ActiveData (name type label : string) (namespaces : list string).

(** The React state of the component.  [anchorElement] holds the DOM element
    of the clicked node, identified here by the node id. *)
Record Ui := {
  activeNode : option ActiveNode;
  anchorElement : option string;
  highlightedPath : gset string;
  isHighlightActive : bool
}.

Definition initialUi : Ui :=
  {| activeNode := None; anchorElement := None; highlightedPath := ∅;
     isHighlightActive := false |}.

(** [node.data.original || { name: node.data.label, type: ..., ...node.data }]. *)
Definition originalData (node : Node) : ActiveNode :=
  match data node with
  | OriginalIface iface => ActiveIface iface
  | OriginalMapping mapping => ActiveMapping mapping
  | OriginalCudn cudn => ActiveCudn cudn
  | Namespaces namespaces =>
      ActiveData (label node)
                 (if String.eqb (node_type node) "attachment"
                  then "attachment" else "unknown")
                 (label node) namespaces
  end.

(** [onNodeClick]: [None] only if [getFlowPath] ran out of fuel. *)
Definition onNodeClick (edges : list Edge) (node : Node) (ui : Ui) : option Ui :=
  match getFlowPath edges (id node) with
  | Some path =>
      Some {| activeNode := Some (originalData node);
              anchorElement := Some (id node);
              highlightedPath := path;
              isHighlightActive := true |}
  | None => None
  end.

Definition handlePopoverClose (ui : Ui) : Ui :=
  {| activeNode := None; anchorElement := None;
     highlightedPath := highlightedPath ui;
     isHighlightActive := isHighlightActive ui |}.

Definition handleBackgroundClick (ui : Ui) : Ui :=
  handlePopoverClose
    {| activeNode := activeNode ui; anchorElement := anchorElement ui;
       highlightedPath := ∅; isHighlightActive := false |}.

(** [highlightedPath.has(x)]. *)
Definition inPath (ui : Ui) (x : string) : bool :=
  bool_decide (x ∈ highlightedPath ui).

(** The [opacity] given to a node in the [nodes] prop. *)
Definition nodeOpacity (ui : Ui) (node : Node) : Q :=
  if isHighlightActive ui then (if inPath ui (id node) then 1 else 3 # 10) else 1.

(** An element of the [edges] prop: the edge with [animated] replaced, and
    its [style]. *)
Record EdgeView := {
  shown : Edge;
  stroke : string;
  strokeWidth : Z;
  opacity : Q
}.

Definition edgeView (ui : Ui) (edge : Edge) : EdgeView :=
  {| shown := {| edge_id := edge_id edge; source := source edge;
                 target := target edge; edge_type := edge_type edge;
                 animated := isHighlightActive ui && inPath ui (edge_id edge);
                 markerEnd := markerEnd edge |};
     stroke := if isHighlightActive ui
               then (if inPath ui (edge_id edge) then "#0066CC" else "#ccc")
               else "#b1b1b1";
     strokeWidth := if isHighlightActive ui
                    then (if inPath ui (edge_id edge) then 3 else 1) else 1;
     opacity := if isHighlightActive ui
                then (if inPath ui (edge_id edge) then 1 else 1 # 10) else 1 |}.

(** How an edge looks while nothing is highlighted. *)
Definition neutralView (edge : Edge) : EdgeView :=
  {| shown := {| edge_id := edge_id edge; source := source edge;
                 target := target edge; edge_type := edge_type edge;
                 animated := false; markerEnd := markerEnd edge |};
     stroke := "#b1b1b1"; strokeWidth := 1; opacity := 1 |}.

(** *** The popover *)

Definition activeName (a : ActiveNode) : option string :=
  match a with
  | ActiveIface iface => Some (Iface.name iface)
  | ActiveData name _ _ _ => Some name
  | _ => None
  end.

Definition activeLocalnet (a : ActiveNode) : option string :=
  match a with
  | ActiveMapping mapping => Some (Mapping.localnet mapping)
  | _ => None
  end.

Definition activeMetadataName (a : ActiveNode) : option string :=
  match a with
  | ActiveCudn cudn => Some (cudnName cudn)
  | _ => None
  end.

Definition activeType (a : ActiveNode) : option string :=
  match a with
  | ActiveIface iface => Some (Iface.type iface)
  | ActiveData _ type _ _ => Some type
  | _ => None
  end.

Definition activeState (a : ActiveNode) : option string :=
  match a with
  | ActiveIface iface => Some (Iface.state iface)
  | _ => None
  end.

Definition activeTopology (a : ActiveNode) : option string :=
  match a with
  | ActiveCudn cudn =>
      Js.chain (Js.chain (Cudn.spec cudn) Cudn.network) Cudn.topology
  | _ => None
  end.

Definition activeNamespaces (a : ActiveNode) : option (list string) :=
  match a with
  | ActiveData _ _ _ namespaces => Some namespaces
  | _ => None
  end.

(** [isVisible={!!activeNode}]. *)
Definition popoverVisible (ui : Ui) : bool :=
  bool_decide (is_Some (activeNode ui)).

(** [activeNode?.name || activeNode?.localnet || activeNode?.metadata?.name]. *)
Definition popoverHeader (ui : Ui) : option string :=
  Js.or (Js.or (Js.chain (activeNode ui) activeName)
               (Js.chain (activeNode ui) activeLocalnet))
        (Js.chain (activeNode ui) activeMetadataName).

(** [activeNode?.type || (activeNode?.localnet ? 'OVN Localnet' : 'CUDN')]. *)
Definition popoverType (ui : Ui) : string :=
  orElse (Js.chain (activeNode ui) activeType)
         (if Js.truthy (Js.chain (activeNode ui) activeLocalnet)
          then "OVN Localnet" else "CUDN").

(** [activeNode?.state || activeNode?.spec?.network?.topology || 'N/A']. *)
Definition popoverState (ui : Ui) : string :=
  orElse (Js.or (Js.chain (activeNode ui) activeState)
                (Js.chain (activeNode ui) activeTopology))
         "N/A".

(** The text of the Namespaces row, when [activeNode?.namespaces] is there. *)
Definition popoverNamespaces (ui : Ui) : option string :=
  option_map (Js.join ", ") (Js.chain (activeNode ui) activeNamespaces).

(** ** Groups, canvas and boxes of the SVG variant *)

Module SvgView.

Definition width : Z := 1400.

Definition ethInterfaces (interfaces : list Iface.t) : list Iface.t :=
  List.filter (Svg.ofType "ethernet") interfaces.

Definition bondInterfaces (interfaces : list Iface.t) : list Iface.t :=
  List.filter (Svg.ofType "bond") interfaces.

Definition bridgeInterfaces (interfaces : list Iface.t) : list Iface.t :=
  List.filter (Svg.isBridge interfaces) interfaces.

Definition isLogical (interfaces : list Iface.t) (iface : Iface.t) : bool :=
  Svg.ofType "ovs-interface" iface && negb (Svg.isBridge interfaces iface).

Definition logicalInterfaces (interfaces : list Iface.t) : list Iface.t :=
  List.filter (isLogical interfaces) interfaces.

(** [!['ethernet', 'bond'].includes(iface.type) && !isBridge(iface)
     && iface.type !== 'ovs-interface']. *)
Definition isOther (interfaces : list Iface.t) (iface : Iface.t) : bool :=
  negb (existsb (String.eqb (Iface.type iface)) ["ethernet"; "bond"])
  && negb (Svg.isBridge interfaces iface)
  && negb (String.eqb (Iface.type iface) "ovs-interface").

Definition otherInterfaces (interfaces : list Iface.t) : list Iface.t :=
  List.filter (isOther interfaces) interfaces.

Definition len {A} (l : list A) : Z := Z.of_nat (length l).

(** [Math.max(...)] over the six column lengths and
    [Math.ceil(otherInterfaces.length / 4) + 2]. *)
Definition maxRows (interfaces : list Iface.t) (bridgeMappings : list Mapping.t)
    (cudns : list Cudn.t) : Z :=
  Z.max (len (ethInterfaces interfaces))
   (Z.max (len (bondInterfaces interfaces))
    (Z.max (len (bridgeInterfaces interfaces))
     (Z.max (len (logicalInterfaces interfaces))
      (Z.max (len bridgeMappings)
       (Z.max (len cudns)
              ((len (otherInterfaces interfaces) + 3) / 4 + 2)%Z))))).

Definition calculatedHeight (interfaces : list Iface.t)
    (bridgeMappings : list Mapping.t) (cudns : list Cudn.t) : Z :=
  Z.max 600
        (Svg.padding
         + maxRows interfaces bridgeMappings cudns * (Svg.itemHeight + 20)
         + 200)%Z.

(** Top left corner, on the canvas, of the box of the other interface at
    [index]: the group is translated by [(padding, calculatedHeight - 140)]
    and the box placed at column [index % 4], row [Math.floor(index / 4)]. *)
Definition otherBox (interfaces : list Iface.t) (bridgeMappings : list Mapping.t)
    (cudns : list Cudn.t) (index : Z) : Z * Z :=
  let col := (index mod 4)%Z in
  let row := (index / 4)%Z in
  (Svg.padding + col * (Svg.itemWidth + 20),
   calculatedHeight interfaces bridgeMappings cudns - 140
   + row * (Svg.itemHeight + 20))%Z.

(** A position in one of the six columns, on one of the first [rows] rows. *)
Definition onGrid (rows : Z) (p : Z * Z) : Prop :=
  exists k i : Z,
    (0 <= k <= 5 /\ 0 <= i < rows
     /\ p = (Svg.padding + Svg.colSpacing * k,
             Svg.padding + i * (Svg.itemHeight + 20)))%Z.

End SvgView.

(** ** The pod pages *)

Module Pods.

Record Pod := {
  name : string;
  namespace : string;
  uid : string;
  creationTimestamp : string;
  phase : option string;      (* status?.phase *)
  nodeName : option string;   (* spec?.nodeName *)
  podIP : option string       (* status?.podIP *)
}.

(** What a card body can hold.  A cell or description holds [None] where
    the expression rendered is [undefined]. *)
Inductive Block :=
| Spinner
| LoadError (message : string)
| PodTable (columns : list string) (rows : list (list (option string)))
| Description (groups : list (string * option string)).

(** [{cond && <block/>}]. *)
Definition when (cond : bool) (block : Block) : list Block :=
  if cond then [block] else [].

Definition columns : list string := ["Name"; "Namespace"; "Status"; "Created"].

Definition row (pod : Pod) : list (option string) :=
  [Some (name pod); Some (namespace pod); phase pod; Some (creationTimestamp pod)].


(** The card body of [PodDetails]. *)
Definition podDetailsBody (pod : option Pod) (loaded : bool)
    (loadError : option string) : list Block :=
  when (negb loaded) Spinner
  ++ match loadError with
     | Some message => when loaded (LoadError message)
     | None => []
     end
  ++ match pod with
     | Some pod =>
         when (loaded && negb (bool_decide (is_Some loadError)))
              (Description [("Name", Some (name pod));
                            ("Namespace", Some (namespace pod));
                            ("Status", phase pod);
                            ("Node", nodeName pod);
                            ("IP", podIP pod)])
     | None => []
     end.

End Pods.

(** * Properties of the graph builder *)

(** ** Every step only appends *)

Lemma appendGraph_empty_r g : appendGraph g emptyGraph = g.
Proof. destruct g; unfold appendGraph; simpl. by rewrite !app_nil_r. Qed.

Lemma appendGraph_assoc a b c :
  appendGraph (appendGraph a b) c = appendGraph a (appendGraph b c).
Proof. unfold appendGraph; simpl. by rewrite !app_assoc. Qed.

Lemma appending_skip : appending (fun g => g).
Proof. intros g. by rewrite appendGraph_empty_r. Qed.

Lemma appending_addNode i l t d : appending (addNode i l t d).
Proof. intros g. unfold addNode, appendGraph; simpl. by rewrite app_nil_r. Qed.

Lemma appending_addEdge s t a : appending (addEdge s t a).
Proof. intros g. unfold addEdge, appendGraph; simpl. by rewrite app_nil_r. Qed.

Lemma appending_then f h :
  appending f -> appending h -> appending (fun g => h (f g)).
Proof.
  intros Hf Hh g. rewrite (Hh (f g)), (Hf g), (Hh (f emptyGraph)).
  apply appendGraph_assoc.
Qed.

Lemma appending_whenTruthy v k :
  (forall s, appending (k s)) -> appending (whenTruthy v k).
Proof.
  intros Hk g. unfold whenTruthy. destruct v as [s|]; [|apply appending_skip].
  destruct (Js.truthy (Some s)); [apply Hk | apply appending_skip].
Qed.

Lemma appending_interfaceStep interfaces iface :
  appending (interfaceStep interfaces iface).
Proof.
  unfold interfaceStep.
  apply (appending_then (fun g => whenTruthy _ _ (addNode _ _ _ _ g))).
  - apply (appending_then (addNode _ _ _ _)); [apply appending_addNode|].
    apply appending_whenTruthy. intros s. apply appending_addEdge.
  - apply appending_whenTruthy. intros s. apply appending_addEdge.
Qed.

Lemma appending_mappingStep mapping : appending (mappingStep mapping).
Proof.
  unfold mappingStep.
  apply (appending_then (addNode _ _ _ _)); [apply appending_addNode|].
  apply appending_whenTruthy. intros s. apply appending_addEdge.
Qed.

Lemma appending_cudnStep cudn : appending (cudnStep cudn).
Proof.
  unfold cudnStep.
  apply (appending_then (addNode _ _ _ _)); [apply appending_addNode|].
  apply appending_whenTruthy. intros s. apply appending_addEdge.
Qed.

Lemma appending_attachmentStep cudn : appending (attachmentStep cudn).
Proof.
  unfold attachmentStep.
  repeat (case_match; try apply appending_skip).
  apply (appending_then (addNode _ _ _ _));
    [apply appending_addNode | apply appending_addEdge].
Qed.

Lemma forEach_appending {A} (body : A -> Graph -> Graph) (arr : list A) g :
  (forall a, appending (body a)) ->
  Js.forEach body arr g =
  appendGraph g {| initialNodes := flat_map (fun a => nodesAdded (body a)) arr;
                   initialEdges := flat_map (fun a => edgesAdded (body a)) arr |}.
Proof.
  intros Hbody. unfold Js.forEach. revert g.
  induction arr as [|a arr IH]; intros g; simpl.
  - symmetry. apply appendGraph_empty_r.
  - rewrite IH, (Hbody a g). unfold appendGraph, nodesAdded, edgesAdded; simpl.
    by rewrite <- !app_assoc.
Qed.

Lemma buildGraph_nodes interfaces bridgeMappings cudns :
  initialNodes (buildGraph interfaces bridgeMappings cudns) =
  flat_map (fun i => nodesAdded (interfaceStep interfaces i)) interfaces
  ++ flat_map (fun m => nodesAdded (mappingStep m)) bridgeMappings
  ++ flat_map (fun c => nodesAdded (cudnStep c)) cudns
  ++ flat_map (fun c => nodesAdded (attachmentStep c)) cudns.
Proof.
  unfold buildGraph.
  rewrite (forEach_appending attachmentStep), (forEach_appending cudnStep),
    (forEach_appending mappingStep), (forEach_appending (interfaceStep _));
    auto using appending_interfaceStep, appending_mappingStep,
      appending_cudnStep, appending_attachmentStep.
  simpl. by rewrite <- !app_assoc.
Qed.

Lemma buildGraph_edges interfaces bridgeMappings cudns :
  initialEdges (buildGraph interfaces bridgeMappings cudns) =
  flat_map (fun i => edgesAdded (interfaceStep interfaces i)) interfaces
  ++ flat_map (fun m => edgesAdded (mappingStep m)) bridgeMappings
  ++ flat_map (fun c => edgesAdded (cudnStep c)) cudns
  ++ flat_map (fun c => edgesAdded (attachmentStep c)) cudns.
Proof.
  unfold buildGraph.
  rewrite (forEach_appending attachmentStep), (forEach_appending cudnStep),
    (forEach_appending mappingStep), (forEach_appending (interfaceStep _));
    auto using appending_interfaceStep, appending_mappingStep,
      appending_cudnStep, appending_attachmentStep.
  simpl. by rewrite <- !app_assoc.
Qed.

Lemma edgesAdded_interfaceStep interfaces iface :
  edgesAdded (interfaceStep interfaces iface) =
  edgeWhen (masterOf iface) (fun master => mkEdge (Iface.name iface) master false)
  ++ edgeWhen (baseIfaceOf iface)
              (fun baseIface => mkEdge baseIface (Iface.name iface) false).
Proof.
  unfold edgesAdded, interfaceStep, whenTruthy, edgeWhen.
  destruct (masterOf iface) as [m|], (baseIfaceOf iface) as [b|]; simpl;
    repeat case_match; reflexivity.
Qed.

Lemma edgesAdded_mappingStep mapping :
  edgesAdded (mappingStep mapping) =
  edgeWhen (Mapping.bridge mapping)
           (fun bridge => mkEdge bridge ("ovn-" +:+ Mapping.localnet mapping) false).
Proof.
  unfold edgesAdded, mappingStep, whenTruthy, edgeWhen.
  destruct (Mapping.bridge mapping); simpl; repeat case_match; reflexivity.
Qed.

Lemma edgesAdded_cudnStep cudn :
  edgesAdded (cudnStep cudn) =
  edgeWhen (physicalNetworkNameOf cudn)
           (fun p => mkEdge ("ovn-" +:+ p) ("cudn-" +:+ cudnName cudn) false).
Proof.
  unfold edgesAdded, cudnStep, whenTruthy, edgeWhen.
  destruct (physicalNetworkNameOf cudn); simpl; repeat case_match; reflexivity.
Qed.

Lemma edgeWhen_In v mk e :
  In e (edgeWhen v mk) -> exists s, v = Some s /\ s <> "" /\ e = mk s.
Proof.
  unfold edgeWhen. destruct v as [s|]; [|intros []].
  simpl. destruct (String.eqb_spec s ""); simpl; [intros []|].
  intros [<-|[]]. eauto.
Qed.

(** ** The namespace list of the attachment pass *)

Lemma ascii_compare_lt_trans a b c :
  Ascii.compare a b = Lt -> Ascii.compare b c = Lt -> Ascii.compare a c = Lt.
Proof.
  unfold Ascii.compare. rewrite !N.compare_lt_iff. lia.
Qed.

Lemma string_compare_not_gt_trans s1 :
  forall s2 s3,
    String.compare s1 s2 <> Gt -> String.compare s2 s3 <> Gt ->
    String.compare s1 s3 <> Gt.
Proof.
  induction s1 as [|a s1 IH]; intros [|b s2] [|c s3]; simpl; try congruence.
  destruct (Ascii.compare a b) eqn:Hab; try congruence;
    destruct (Ascii.compare b c) eqn:Hbc; try congruence; intros H12 H23.
  - apply Ascii.compare_eq_iff in Hab, Hbc. subst.
    assert (Ascii.compare c c = Eq) as -> by (unfold Ascii.compare; apply N.compare_refl).
    by apply (IH s2).
  - apply Ascii.compare_eq_iff in Hab. subst. by rewrite Hbc.
  - apply Ascii.compare_eq_iff in Hbc. subst. by rewrite Hab.
  - by rewrite (ascii_compare_lt_trans a b c).
Qed.

#[global] Instance str_le_total : Total Js.str_le.
Proof. intros a b. apply String.leb_total. Qed.

#[global] Instance str_le_trans : Transitive Js.str_le.
Proof.
  intros a b c. unfold Js.str_le, String.leb. intros Hab Hbc.
  pose proof (string_compare_not_gt_trans a b c) as H.
  destruct (String.compare a b), (String.compare b c), (String.compare a c);
    try done; exfalso; apply H; congruence.
Qed.

#[global] Instance str_le_antisym : AntiSymm (=) Js.str_le.
Proof. intros a b. apply String.leb_antisym. Qed.


Lemma sort_permutation arr : Js.sort arr ≡ₚ arr.
Proof. unfold Js.sort. apply merge_sort_Permutation. Qed.

Lemma split_not_nil sep s : Js.split sep s <> [].
Proof.
  destruct s as [|c s]; simpl; [done|].
  destruct (Ascii.eqb c sep); [done|]. by destruct (Js.split sep s).
Qed.

Lemma parseNamespaces_permutation group :
  parseNamespaces group ≡ₚ map Js.trim (Js.split "," group).
Proof. apply sort_permutation. Qed.

Lemma parseNamespaces_length group : (0 < length (parseNamespaces group))%nat.
Proof.
  rewrite (Permutation_length (parseNamespaces_permutation group)), length_map.
  pose proof (split_not_nil "," group). destruct (Js.split "," group); simpl; [done|lia].
Qed.

Lemma attachmentStep_spec cudn g :
  attachmentStep cudn g =
  match attachmentGroup cudn with
  | Some group =>
      {| initialNodes := initialNodes g ++ [attachmentNode cudn (parseNamespaces group)];
         initialEdges := initialEdges g ++ [attachmentEdge cudn] |}
  | None => g
  end.
Proof.
  unfold attachmentStep, attachmentGroup.
  destruct (findCondition cudn) as [c|]; [|done].
  destruct (Condition.message c) as [m|]; [|done].
  destruct (Js.truthy (Some m)); [|done].
  destruct (Js.matchBracket m) as [group|]; [|done].
  destruct (Js.truthy (Some group)); [|done].
  pose proof (parseNamespaces_length group) as Hlen.
  apply Nat.ltb_lt in Hlen. rewrite Hlen. reflexivity.
Qed.

Lemma edgesAdded_attachmentStep cudn :
  edgesAdded (attachmentStep cudn) =
  match attachmentGroup cudn with Some _ => [attachmentEdge cudn] | None => [] end.
Proof.
  unfold edgesAdded. rewrite attachmentStep_spec.
  by destruct (attachmentGroup cudn).
Qed.

Lemma nodesAdded_attachmentStep cudn :
  nodesAdded (attachmentStep cudn) =
  match attachmentGroup cudn with
  | Some group => [attachmentNode cudn (parseNamespaces group)]
  | None => []
  end.
Proof.
  unfold nodesAdded. rewrite attachmentStep_spec.
  by destruct (attachmentGroup cudn).
Qed.

Lemma join_take_all sep (l : list string) :
  (length l <= 3)%nat -> Js.join sep (firstn 3 l) = Js.join sep l.
Proof. intros H. by rewrite firstn_all2. Qed.

(** ** Settled properties of the builder *)

(** C1. The builder adds the [bridge -> ovn-<localnet>] and the
    [ovn-<physicalNetworkName> -> cudn-<name>] edges on the truthiness of the
    name alone: for a mapping whose bridge is not an interface, and for a
    network whose physical network has no mapping, the built edge list holds
    an edge whose source is not the id of any built node. *)
Theorem C1_dangling_edges_are_built :
  let g := buildGraph [eth0] [physnet1_on_missing_bridge] [net_a_on_physnet2] in
  In (mkEdge "br-missing" "ovn-physnet1" false) (initialEdges g)
  /\ ~ In "br-missing" (nodeIds g)
  /\ In (mkEdge "ovn-physnet2" "cudn-net-a" false) (initialEdges g)
  /\ ~ In "ovn-physnet2" (nodeIds g).
Proof.
  vm_compute. repeat split; try tauto; intros H; decompose [or] H; congruence.
Qed.

(** A name that is neither a member of [Object.prototype] nor [x] or [y]
    is found in [nodePositions] exactly when a box was placed under it. *)
Lemma getPosition_own pos key :
  ~ In key Svg.prototypeMembers -> key <> "x" -> key <> "y" ->
  Svg.getPosition pos key
  = option_map (fun p : Z * Z => Svg.Placed p.1 p.2) (pos !! key).
Proof.
  intros Hproto Hx Hy. unfold Svg.getPosition.
  destruct (pos !! key) as [[x y]|]; [done|]. simpl.
  rewrite bool_decide_eq_false_2 by (by rewrite list_elem_of_In).
  rewrite bool_decide_eq_false_2; [done|].
  rewrite !elem_of_cons, elem_of_nil. tauto.
Qed.

(** The SVG variant guards each connector on the lookups of both of its
    ends in [nodePositions]: both ends of a connector it draws are found
    there, as a placed box or as a member of the prototype. *)
Lemma Svg_connectors_resolve interfaces bridgeMappings cudns line :
  In (Some line) (Svg.connectors interfaces bridgeMappings cudns) ->
  is_Some (Svg.getPosition (Svg.nodePositions interfaces bridgeMappings cudns)
                           (Svg.startNode line))
  /\ is_Some (Svg.getPosition (Svg.nodePositions interfaces bridgeMappings cudns)
                              (Svg.endNode line)).
Proof.
  assert (Hrc : forall pos s e, Svg.renderConnector pos s e = Some line ->
                  is_Some (Svg.getPosition pos (Svg.startNode line))
                  /\ is_Some (Svg.getPosition pos (Svg.endNode line))).
  { intros pos s e. unfold Svg.renderConnector.
    destruct (Svg.getPosition pos s) as [start|] eqn:Hs; [|done].
    destruct (Svg.getPosition pos e) as [end_|] eqn:He; [|done].
    intros [= <-]; simpl. rewrite Hs, He. eauto. }
  assert (Hg : forall pos v idOf s0 mk,
             Svg.guarded pos v idOf (fun s => Svg.renderConnector pos (s0 s) (mk s)) = Some line ->
             is_Some (Svg.getPosition pos (Svg.startNode line))
             /\ is_Some (Svg.getPosition pos (Svg.endNode line))).
  { intros pos v idOf s0 mk. unfold Svg.guarded. destruct v as [s|]; [|done].
    case_match; [|done]. apply Hrc. }
  unfold Svg.connectors. cbv zeta. rewrite !in_app_iff, !in_map_iff.
  intros [(i & Hi & _)|[(m & Hm & _)|(c & Hc & _)]].
  - by apply (Hg _ _ _ (fun _ => Iface.name i) (fun s => s)) in Hi.
  - by apply (Hg _ _ _ (fun s => s) (fun _ => "ovn-" +:+ Mapping.localnet m)) in Hm.
  - by apply (Hg _ _ _ (fun _ => "cudn-" +:+ cudnName c) (fun s => "ovn-" +:+ s)) in Hc.
Qed.

Example Svg_draws_no_dangling_connector :
  Svg.connectors [eth0] [physnet1_on_missing_bridge] [net_a_on_physnet2]
  = [None; None; None].
Proof. vm_compute. reflexivity. Qed.

(** A controller named like a member of [Object.prototype] passes both
    guards although no box is placed for it: the line is drawn from the box
    of [eth0], with no end coordinates. *)
Example Svg_connector_to_prototype_member :
  Svg.connectors [eth0_on_constructor] [] []
  = [Some {| Svg.key := "eth0-constructor";
             Svg.x1 := Some 210%Z; Svg.y1 := Some 90%Z;
             Svg.x2 := None; Svg.y2 := None;
             Svg.startNode := "eth0"; Svg.endNode := "constructor" |}].
Proof. vm_compute. reflexivity. Qed.

(** *** Classification of an [ovs-interface] *)

Lemma seq_Some v s : Js.seq v s = true <-> v = Some s.
Proof.
  unfold Js.seq. destruct v as [t|]; [|split; done].
  destruct (String.eqb_spec t s); split; congruence.
Qed.

(** C2, as the code has it.  For an [ovs-interface] the role is [bridge]
    exactly when some interface of the collection, which may be the interface
    itself, names it as [controller] or [master] and it has no [patch]; the
    role is [logical] otherwise, in particular whenever [patch] is there. *)
Theorem C2_ovs_interface_role interfaces iface
    (Htype : Iface.type iface = "ovs-interface") :
  (classify interfaces iface = "bridge"
   <-> namedAsController interfaces (Iface.name iface) /\ Iface.patch iface = None)
  /\ (classify interfaces iface <> "bridge" -> classify interfaces iface = "logical")
  /\ (is_Some (Iface.patch iface) -> classify interfaces iface = "logical").
Proof.
  unfold classify. rewrite Htype. simpl.
  set (isController := existsb _ interfaces).
  assert (Hc : isController = true <-> namedAsController interfaces (Iface.name iface)).
  { unfold isController, namedAsController. rewrite existsb_exists.
    split; intros (i & Hi & H); exists i; split; auto.
    - apply orb_true_iff in H. by rewrite !seq_Some in H.
    - apply orb_true_iff. by rewrite !seq_Some. }
  destruct (Iface.patch iface) as [p|] eqn:Hp.
  - rewrite bool_decide_eq_true_2 by eauto. rewrite andb_false_r.
    split; [|done]. split; [done | by intros [_ ?]].
  - rewrite bool_decide_eq_false_2 by (intros [? ?]; done). rewrite andb_true_r.
    split; [|split; [|by intros [? ?]]].
    + destruct isController; split; try done.
      * intros _. split; [by apply Hc | done].
      * intros [H _]. apply Hc in H. done.
    + by destruct isController.
Qed.

Lemma C2_ovs_interface_role_witness :
  classify [br0_internal_port; eth0] br0_internal_port = "bridge"
  <-> namedAsController [br0_internal_port; eth0] "br0"
      /\ Iface.patch br0_internal_port = None.
Proof.
  apply (C2_ovs_interface_role [br0_internal_port; eth0] br0_internal_port).
  reflexivity.
Defined.

(** The internal port of [br0] is the only interface and names itself as
    controller: no other interface names it, and its role is [bridge]. *)
Lemma C2_self_named_port_is_bridge :
  Iface.type br0_internal_port = "ovs-interface"
  /\ Iface.patch br0_internal_port = None
  /\ ~ (exists other, In other [br0_internal_port] /\ other <> br0_internal_port
                      /\ (Iface.controller other = Some "br0"
                          \/ Iface.master other = Some "br0"))
  /\ classify [br0_internal_port] br0_internal_port = "bridge".
Proof.
  repeat split; try reflexivity.
  intros (other & [<-|[]] & Hne & _). by apply Hne.
Qed.

(** The SVG variant decides the same way from the set of chosen
    [controller || master] names. *)
Lemma Svg_isBridge_ovs_interface interfaces iface :
  Iface.type iface = "ovs-interface" ->
  Svg.isBridge interfaces iface = true
  <-> (exists i, In i interfaces /\ masterOf i = Some (Iface.name iface)
                 /\ Iface.name iface <> "")
      /\ Iface.patch iface = None.
Proof.
  intros Htype. unfold Svg.isBridge. rewrite Htype. simpl.
  assert (Hin : Iface.name iface ∈ Svg.controllerNames interfaces
                <-> exists i, In i interfaces /\ masterOf i = Some (Iface.name iface)
                              /\ Iface.name iface <> "").
  { unfold Svg.controllerNames. rewrite elem_of_list_to_set, list_elem_of_omap.
    split.
    - intros (i & Hi & H). exists i. rewrite <- list_elem_of_In. split; [done|].
      destruct (masterOf i) as [m|] eqn:Hm; simpl in H; [|done].
      destruct (String.eqb_spec m ""); simpl in H; [done|].
      injection H as <-. done.
    - intros (i & Hi & Hm & Hne). exists i. rewrite list_elem_of_In. split; [done|].
      rewrite Hm. simpl. destruct (String.eqb_spec (Iface.name iface) ""); done. }
  destruct (Iface.patch iface) as [p|].
  - rewrite (bool_decide_eq_true_2 (is_Some (Some p))) by eauto.
    rewrite andb_false_r. simpl. split; [done | by intros [_ ?]].
  - rewrite (bool_decide_eq_false_2 (is_Some None)) by (intros [? ?]; done).
    rewrite andb_true_r. simpl.
    case_bool_decide as H; rewrite Hin in H; split; try done.
    by intros [? _].
Qed.

(** *** Edge ids *)

Lemma length_edgeWhen v mk : length (edgeWhen v mk) = fires v.
Proof.
  unfold edgeWhen, fires. destruct v as [s|]; [|done].
  by destruct (Js.truthy (Some s)).
Qed.

Lemma length_flat_map {A B} (f : A -> list B) (l : list A) :
  length (flat_map f l) = sum_list_with (fun a => length (f a)) l.
Proof. induction l as [|a l IH]; simpl; [done|]. by rewrite length_app, IH. Qed.

Lemma sum_list_with_pointwise {A} (f h : A -> nat) (l : list A) :
  (forall a, f a = h a) -> sum_list_with f l = sum_list_with h l.
Proof. intros E. induction l as [|a l IH]; simpl; [done|]. by rewrite E, IH. Qed.

Lemma or_iff_both (A B C D : Prop) : (A <-> B) -> (C <-> D) -> (A \/ C <-> B \/ D).
Proof. tauto. Qed.

Lemma buildGraph_edge_In interfaces bridgeMappings cudns e :
  In e (initialEdges (buildGraph interfaces bridgeMappings cudns)) <->
  (exists i, In i interfaces /\
     (In e (edgeWhen (masterOf i) (fun m => mkEdge (Iface.name i) m false))
      \/ In e (edgeWhen (baseIfaceOf i) (fun b => mkEdge b (Iface.name i) false))))
  \/ (exists m, In m bridgeMappings /\
        In e (edgeWhen (Mapping.bridge m)
                       (fun b => mkEdge b ("ovn-" +:+ Mapping.localnet m) false)))
  \/ (exists c, In c cudns /\
        In e (edgeWhen (physicalNetworkNameOf c)
                       (fun p => mkEdge ("ovn-" +:+ p) ("cudn-" +:+ cudnName c) false)))
  \/ (exists c, In c cudns /\ attachmentGroup c <> None /\ e = attachmentEdge c).
Proof.
  rewrite buildGraph_edges, !in_app_iff, !in_flat_map.
  repeat apply or_iff_both; split.
  - intros (i & Hi & H). exists i. split; [done|].
    by rewrite edgesAdded_interfaceStep, in_app_iff in H.
  - intros (i & Hi & H). exists i. split; [done|].
    by rewrite edgesAdded_interfaceStep, in_app_iff.
  - intros (m & Hm & H). exists m. by rewrite edgesAdded_mappingStep in H.
  - intros (m & Hm & H). exists m. by rewrite edgesAdded_mappingStep.
  - intros (c & Hc & H). exists c. by rewrite edgesAdded_cudnStep in H.
  - intros (c & Hc & H). exists c. by rewrite edgesAdded_cudnStep.
  - intros (c & Hc & H). exists c. rewrite edgesAdded_attachmentStep in H.
    destruct (attachmentGroup c); [|done]. destruct H as [<-|[]]. done.
  - intros (c & Hc & Hg & ->). exists c. rewrite edgesAdded_attachmentStep.
    split; [done|]. destruct (attachmentGroup c); [by left|done].
Qed.

(** The bridge-mapping pass never looks at the interfaces: a mapping with a
    non-empty [bridge] gets its edge whatever the interface names are. *)
Lemma mapping_edge_ignores_interfaces interfaces bridgeMappings cudns m b :
  In m bridgeMappings -> Mapping.bridge m = Some b -> b <> "" ->
  In (mkEdge b ("ovn-" +:+ Mapping.localnet m) false)
     (initialEdges (buildGraph interfaces bridgeMappings cudns)).
Proof.
  intros Hm Hb Hne. apply buildGraph_edge_In. right. left.
  exists m. split; [done|]. rewrite Hb. unfold edgeWhen. simpl.
  destruct (String.eqb_spec b ""); [done|]. by left.
Qed.

Lemma mkEdge_id s t a : edge_id (mkEdge s t a) = source (mkEdge s t a) +:+ "-" +:+ target (mkEdge s t a).
Proof. reflexivity. Qed.

(** C4, as the code has it.  Every edge of a built graph has the id
    [<source>-<target>], and the builder keeps one edge for every [addEdge]
    it runs: the number of edges is the number of truthy
    [controller || master] and base interface names, truthy [bridge] names,
    truthy physical network names and parsed attachments. *)
Theorem C4_edge_ids_and_count interfaces bridgeMappings cudns :
  let g := buildGraph interfaces bridgeMappings cudns in
  Forall (fun e => edge_id e = source e +:+ "-" +:+ target e) (initialEdges g)
  /\ length (initialEdges g) =
     (sum_list_with (fun i => fires (masterOf i) + fires (baseIfaceOf i)) interfaces
      + sum_list_with (fun m => fires (Mapping.bridge m)) bridgeMappings
      + sum_list_with (fun c => fires (physicalNetworkNameOf c)) cudns
      + sum_list_with (fun c => fires (attachmentGroup c)) cudns)%nat.
Proof.
  cbv zeta. split.
  - apply List.Forall_forall. intros e He.
    apply buildGraph_edge_In in He.
    destruct He as [(i & _ & [H|H])|[(m & _ & H)|[(c & _ & H)|(c & _ & _ & ->)]]];
      try (apply edgeWhen_In in H; destruct H as (s & _ & _ & ->));
      apply mkEdge_id.
  - rewrite buildGraph_edges, !length_app, !length_flat_map.
    rewrite !Nat.add_assoc. f_equal; [f_equal; [f_equal|]|].
    + apply sum_list_with_pointwise. intros i.
      by rewrite edgesAdded_interfaceStep, length_app, !length_edgeWhen.
    + apply sum_list_with_pointwise. intros m.
      by rewrite edgesAdded_mappingStep, length_edgeWhen.
    + apply sum_list_with_pointwise. intros c.
      by rewrite edgesAdded_cudnStep, length_edgeWhen.
    + apply sum_list_with_pointwise. intros c. rewrite edgesAdded_attachmentStep.
      unfold fires. destruct (attachmentGroup c) as [grp|] eqn:Hg; [|done].
      assert (Js.truthy (Some grp) = true) as ->; [|done].
      unfold attachmentGroup in Hg. repeat case_match; congruence.
Qed.

(** [eth0] names [vlan10] as controller and [vlan10] names [eth0] as base
    interface: both rules add the edge [eth0 -> vlan10], and the edge list
    holds it twice, under one id. *)
Lemma C4_equal_pairs_are_kept_twice :
  let g := buildGraph [plainIface "eth0" "ethernet" (Some "vlan10");
                       vlanIface "vlan10" "eth0"] [] [] in
  initialEdges g = [mkEdge "eth0" "vlan10" false; mkEdge "eth0" "vlan10" false]
  /\ map edge_id (initialEdges g) = ["eth0-vlan10"; "eth0-vlan10"]
  /\ ~ NoDup (map edge_id (initialEdges g)).
Proof.
  cbv zeta. split; [reflexivity|]. split; [reflexivity|].
  change (map edge_id _) with ["eth0-vlan10"; "eth0-vlan10"].
  intros H. apply NoDup_cons_1_1 in H. apply H. by left.
Qed.

(** *** Attachments *)

Lemma attachmentGroup_Some cudn condition message group :
  findCondition cudn = Some condition ->
  Condition.message condition = Some message ->
  Js.matchBracket message = Some group ->
  group <> "" ->
  attachmentGroup cudn = Some group.
Proof.
  intros Hc Hm Hb Hg. unfold attachmentGroup. rewrite Hc, Hm, Hb.
  assert (Js.truthy (Some group) = true) as ->.
  { simpl. by destruct (String.eqb_spec group ""). }
  assert (Js.truthy (Some message) = true) as ->; [|done].
  simpl. destruct (String.eqb_spec message "") as [->|]; [|done]. done.
Qed.




Example attachment_label_truncates :
  nodesAdded (attachmentStep net_d_many) =
  [mkNode "attachment-net-d" "NS: a, b, c..." "attachment"
          (Namespaces ["a"; "b"; "c"; "d"; "e"])].
Proof. vm_compute. reflexivity. Qed.

(** The attachment pass leaves the graph as it is for a CUDN that has no
    [NetworkCreated]/[True] condition, whose condition has no message or an
    empty one, whose message has no match for the bracket pattern, or whose
    match captures nothing ([[]]).  The pass is a total function: nothing is
    raised. *)
Lemma attachmentStep_skips cudn g
    (H : findCondition cudn = None
         \/ exists condition,
              findCondition cudn = Some condition
              /\ (Js.truthy (Condition.message condition) = false
                  \/ exists message,
                       Condition.message condition = Some message
                       /\ (Js.matchBracket message = None
                           \/ Js.matchBracket message = Some ""))) :
  attachmentStep cudn g = g
  /\ nodesAdded (attachmentStep cudn) = []
  /\ edgesAdded (attachmentStep cudn) = [].
Proof.
  assert (Hnone : attachmentGroup cudn = None).
  { unfold attachmentGroup.
    destruct H as [->|(c & -> & [Hm|(m & -> & Hb)])]; [done| |].
    - destruct (Condition.message c); [|done]. by rewrite Hm.
    - destruct (Js.truthy (Some m)); [|done].
      by destruct Hb as [->| ->]. }
  rewrite attachmentStep_spec, nodesAdded_attachmentStep,
    edgesAdded_attachmentStep, Hnone. done.
Qed.

Example attachmentStep_skips_missing_and_empty :
  attachmentStep net_a_on_physnet2 emptyGraph = emptyGraph
  /\ attachmentStep net_e_empty_list emptyGraph = emptyGraph.
Proof. split; reflexivity. Qed.

(** These are the only cases in which the pass adds nothing. *)
Lemma attachmentStep_adds cudn group :
  attachmentGroup cudn = Some group ->
  nodesAdded (attachmentStep cudn) <> [] /\ edgesAdded (attachmentStep cudn) <> [].
Proof.
  intros Hgroup.
  rewrite nodesAdded_attachmentStep, edgesAdded_attachmentStep, Hgroup. done.
Qed.

(** C7.  The test [namespaces.length > 0] never fails: what the pattern
    captures is split into at least one piece, and the pieces are trimmed but
    not filtered.  A bracket pair that holds only white space, or only a
    comma, names no namespace, and yet the pass creates the node
    [attachment-<name>], labelled with the empty names, and its animated
    edge. *)
Theorem C7_blank_list_creates_attachment :
  (forall group, (0 <? length (parseNamespaces group))%nat = true)
  /\ Js.matchBracket "created in following namespaces: [ ]" = Some " "
  /\ parseNamespaces " " = [""]
  /\ attachmentStep net_f_blank_list emptyGraph =
     {| initialNodes :=
          [{| id := "attachment-net-f"; label := "NS: ";
              data := Namespaces [""]; position := (0, 0)%Z;
              style := {| border := "2px solid #F0AB00"; padding := 10;
                          borderRadius := 5; width := 180;
                          background := "#fffff0" |};
              node_type := "default" |}];
        initialEdges :=
          [{| edge_id := "cudn-net-f-attachment-net-f"; source := "cudn-net-f";
              target := "attachment-net-f"; edge_type := "smoothstep";
              animated := true; markerEnd := "arrowclosed" |}] |}
  /\ Js.matchBracket "created in following namespaces: [,]" = Some ","
  /\ parseNamespaces "," = [""; ""]
  /\ map id (nodesAdded (attachmentStep net_g_lone_comma)) = ["attachment-net-g"]
  /\ map label (nodesAdded (attachmentStep net_g_lone_comma)) = ["NS: , "]
  /\ map data (nodesAdded (attachmentStep net_g_lone_comma)) = [Namespaces [""; ""]]
  /\ map (fun e => (source e, target e, animated e))
         (edgesAdded (attachmentStep net_g_lone_comma))
     = [("cudn-net-g", "attachment-net-g", true)].
Proof.
  split.
  - intros group. apply Nat.ltb_lt, parseNamespaces_length.
  - vm_compute. repeat split.
Qed.

(** *** Precedence of [controller] and of the camel-case path *)

Lemma truthy_Some s : s <> "" -> Js.truthy (Some s) = true.
Proof. intros H. simpl. by destruct (String.eqb_spec s ""). Qed.

Lemma or_left a b s : a = Some s -> s <> "" -> Js.or a b = Some s.
Proof. intros -> H. unfold Js.or. by rewrite truthy_Some. Qed.

Lemma or_right a b : Js.truthy a = false -> Js.or a b = b.
Proof. intros H. unfold Js.or. by rewrite H. Qed.

Lemma edgeWhen_Some s mk : s <> "" -> edgeWhen (Some s) mk = [mk s].
Proof. intros H. unfold edgeWhen. by rewrite truthy_Some. Qed.

Lemma step_edges (step : Graph -> Graph) g :
  appending step -> initialEdges (step g) = initialEdges g ++ edgesAdded step.
Proof. intros H. by rewrite (H g). Qed.



(** C10.  The physical network name of a CUDN is the value at
    [spec.network.localNet.physicalNetworkName] when that is a non-empty
    name, whatever the lowercase path holds, and the value at
    [spec.network.localnet.physicalNetworkName] when the camel-case value is
    absent or empty.  In both cases the CUDN pass adds exactly one edge, with
    source [ovn-<name>], target [cudn-<cudn name>] and [animated] unset, and
    the built graph holds it: a CUDN spelled in lowercase only gets its edge.
    The SVG variant resolves the name by the same expression and draws its
    connector between the same two ends, from the [cudn-] box to the [ovn-]
    box. *)
Theorem C10_physical_network_name cudn p g
    (Hname : camelName cudn = Some p
             \/ (Js.truthy (camelName cudn) = false /\ lowerName cudn = Some p))
    (Hp : p <> "") :
  physicalNetworkNameOf cudn = Some p
  /\ (exists edge,
        initialEdges (cudnStep cudn g) = initialEdges g ++ [edge]
        /\ source edge = "ovn-" +:+ p
        /\ target edge = "cudn-" +:+ cudnName cudn
        /\ edge_id edge = ("ovn-" +:+ p) +:+ "-" +:+ ("cudn-" +:+ cudnName cudn)
        /\ animated edge = false
        /\ (forall interfaces bridgeMappings cudns,
              In cudn cudns ->
              In edge (initialEdges (buildGraph interfaces bridgeMappings cudns))))
  /\ (forall pos sx sy ex ey,
        pos !! ("cudn-" +:+ cudnName cudn) = Some (sx, sy) ->
        pos !! ("ovn-" +:+ p) = Some (ex, ey) ->
        Svg.guarded pos (physicalNetworkNameOf cudn)
          (fun physicalNetworkName => "ovn-" +:+ physicalNetworkName)
          (fun physicalNetworkName =>
             Svg.renderConnector pos ("cudn-" +:+ cudnName cudn)
                                 ("ovn-" +:+ physicalNetworkName))
        = Some {| Svg.key := ("cudn-" +:+ cudnName cudn) +:+ "-" +:+ ("ovn-" +:+ p);
                  Svg.x1 := Some (sx + 160)%Z; Svg.y1 := Some (sy + 40)%Z;
                  Svg.x2 := Some ex; Svg.y2 := Some (ey + 40)%Z;
                  Svg.startNode := "cudn-" +:+ cudnName cudn;
                  Svg.endNode := "ovn-" +:+ p |}).
Proof.
  assert (Hphys : physicalNetworkNameOf cudn = Some p).
  { unfold physicalNetworkNameOf. destruct Hname as [Hcamel|[Hcamel Hlower]].
    - by apply or_left.
    - by rewrite or_right. }
  split; [done|]. split.
  - eexists. split.
    { rewrite step_edges by apply appending_cudnStep.
      rewrite edgesAdded_cudnStep, Hphys, edgeWhen_Some by done. reflexivity. }
    do 4 (split; [reflexivity|]).
    intros interfaces bridgeMappings cudns Hin. apply buildGraph_edge_In.
    right. right. left. exists cudn. split; [done|].
    rewrite Hphys, edgeWhen_Some by done. by left.
  - intros pos sx sy ex ey Hstart Hend. rewrite Hphys.
    unfold Svg.guarded, Svg.renderConnector, Svg.getPosition.
    rewrite Hstart, Hend, truthy_Some by done. reflexivity.
Qed.

Lemma C10_physical_network_name_witness :
  (physicalNetworkNameOf net_c_both = Some "physnet1"
   /\ map (fun e => (edge_id e, source e, target e, animated e))
          (initialEdges (cudnStep net_c_both emptyGraph))
      = [("ovn-physnet1-cudn-net-c", "ovn-physnet1", "cudn-net-c", false)])
  /\ (physicalNetworkNameOf net_b_lowercase = Some "physnet1"
      /\ map (fun e => (edge_id e, source e, target e, animated e))
             (initialEdges (cudnStep net_b_lowercase emptyGraph))
         = [("ovn-physnet1-cudn-net-b", "ovn-physnet1", "cudn-net-b", false)]).
Proof.
  split.
  - pose proof (C10_physical_network_name net_c_both "physnet1" emptyGraph
                  (or_introl eq_refl) ltac:(discriminate))
      as (H1 & (edge & He & Hsource & Htarget & Hedge_id & Hanimated & _) & _).
    split; [exact H1|].
    rewrite He. simpl. rewrite Hsource, Htarget, Hedge_id, Hanimated. reflexivity.
  - pose proof (C10_physical_network_name net_b_lowercase "physnet1" emptyGraph
                  (or_intror (conj eq_refl eq_refl)) ltac:(discriminate))
      as (H1 & (edge & He & Hsource & Htarget & Hedge_id & Hanimated & _) & _).
    split; [exact H1|].
    rewrite He. simpl. rewrite Hsource, Htarget, Hedge_id, Hanimated. reflexivity.
Defined.

(** * Properties of the path traversal *)

Section TraversalFacts.
Context (E : list Edge) (d : Direction).

Lemma connected_anchor n e : connected d n e = true <-> anchor d e = n.
Proof.
  unfold connected, anchor. destruct d.
  - destruct (String.eqb_spec (target e) n); split; congruence.
  - destruct (String.eqb_spec (source e) n); split; congruence.
Qed.

Lemma In_connectedEdges n e :
  In e (List.filter (connected d n) E) <-> In e E /\ anchor d e = n.
Proof. by rewrite filter_In, connected_anchor. Qed.

(** The function computes the relation. *)
Lemma forEachM_Loop fuel n :
  (forall m w w', traverse fuel E m d w = Some w' -> Run E d m w w') ->
  forall l w w',
    forEachM (fun edge w =>
                traverse fuel E (nextNodeId d edge) d
                         (addToPath (edge_id edge) w)) l w = Some w' ->
    Loop E d n l w w'.
Proof.
  intros IH. induction l as [|e l IHl]; intros w w'; simpl.
  - intros [= <-]. constructor.
  - destruct (traverse fuel E _ d _) as [w1|] eqn:Hcall; [|done].
    intros Hrest. econstructor; eauto.
Qed.

Lemma traverse_Run fuel :
  forall n w w', traverse fuel E n d w = Some w' -> Run E d n w w'.
Proof.
  induction fuel as [|fuel IH]; intros n w w'; simpl; [done|].
  case_bool_decide as Hseen.
  - intros [= <-]. by constructor.
  - intros Hloop. apply Run_enter; [done|].
    by apply (forEachM_Loop fuel n IH).
Qed.

(** The sets only grow. *)
Lemma Run_Loop_mono :
  (forall n w w', Run E d n w w' ->
                  visited w ⊆ visited w' /\ path w ⊆ path w')
  /\ (forall n l w w', Loop E d n l w w' ->
                       visited w ⊆ visited w' /\ path w ⊆ path w').
Proof.
  apply Run_Loop_ind.
  - done.
  - intros n w w' _ _ [Hv Hp]. simpl in *. set_solver.
  - done.
  - intros n e rest w w1 w' _ [Hv1 Hp1] _ [Hv Hp]. simpl in *. set_solver.
Qed.

Lemma Run_mono n w w' : Run E d n w w' -> visited w ⊆ visited w'.
Proof. intros H. by apply Run_Loop_mono in H as [? _]. Qed.

Lemma Loop_mono n l w w' : Loop E d n l w w' -> visited w ⊆ visited w'.
Proof. intros H. by apply Run_Loop_mono in H as [? _]. Qed.

(** The node a call is made for is in [visited] when the call returns. *)
Lemma Run_reached n w w' : Run E d n w w' -> n ∈ visited w'.
Proof.
  destruct 1 as [n w Hin|n w w' _ Hloop]; [done|].
  apply Loop_mono in Hloop. simpl in Hloop. set_solver.
Qed.

Lemma Loop_reached n l w w' :
  Loop E d n l w w' -> forall e, In e l -> nextNodeId d e ∈ visited w'.
Proof.
  induction 1 as [|n e rest w w1 w' Hrun Hloop IH]; intros e' []; subst.
  - apply Run_reached in Hrun. apply Loop_mono in Hloop. set_solver.
  - by apply IH.
Qed.

Lemma fresh_none w m : ~ fresh w w m.
Proof. by intros [? ?]. Qed.

Lemma fresh_enter n w w' m :
  n ∉ visited w -> visited (enter n w) ⊆ visited w' ->
  fresh w w' m <-> m = n \/ fresh (enter n w) w' m.
Proof.
  unfold fresh. simpl. intros Hn Hsub. split.
  - intros [Hin Hout]. destruct (decide (m = n)); [by left|right]. set_solver.
  - intros [->|[Hin Hout]]; set_solver.
Qed.

Lemma fresh_split w w1 w' m :
  visited w ⊆ visited w1 -> visited w1 ⊆ visited w' ->
  fresh w w' m <-> fresh w w1 m \/ fresh w1 w' m.
Proof.
  unfold fresh. intros H1 H2. split.
  - intros [Hin Hout]. destruct (decide (m ∈ visited w1)); [by left|by right].
  - intros [[Hin Hout]|[Hin Hout]]; set_solver.
Qed.

(** Whatever a call enters is reached from its node by moves. *)
Lemma Run_Loop_sound :
  (forall n w w', Run E d n w w' ->
     forall m, fresh w w' m -> rtc (moves E d) n m)
  /\ (forall n l w w', Loop E d n l w w' ->
        (forall e, In e l -> In e E /\ anchor d e = n) ->
        forall m, fresh w w' m -> rtc (moves E d) n m).
Proof.
  apply Run_Loop_ind.
  - intros n w _ m Hm. by apply fresh_none in Hm.
  - intros n w w' Hn Hloop IH m Hm.
    apply (fresh_enter n) in Hm; [|done|by apply Loop_mono in Hloop].
    destruct Hm as [->|Hm]; [done|].
    apply IH; [|done]. intros e. apply In_connectedEdges.
  - intros n w _ m Hm. by apply fresh_none in Hm.
  - intros n e rest w w1 w' Hrun IHrun Hloop IHloop Hok m Hm.
    apply (fresh_split w w1) in Hm;
      [|by apply Run_mono in Hrun|by apply Loop_mono in Hloop].
    destruct Hm as [Hm|Hm].
    + eapply rtc_l; [|by apply IHrun].
      exists e. destruct (Hok e) as [? ?]; [by left|done].
    + apply IHloop; [|done]. intros e' He'. apply Hok. by right.
Qed.

(** Whatever a call enters has all its moves inside [visited] when the
    call returns. *)
Lemma Run_Loop_closed :
  (forall n w w', Run E d n w w' ->
     forall m, fresh w w' m -> forall b, moves E d m b -> b ∈ visited w')
  /\ (forall n l w w', Loop E d n l w w' ->
        forall m, fresh w w' m -> forall b, moves E d m b -> b ∈ visited w').
Proof.
  apply Run_Loop_ind.
  - intros n w _ m Hm. by apply fresh_none in Hm.
  - intros n w w' Hn Hloop IH m Hm b Hmove.
    apply (fresh_enter n) in Hm; [|done|by apply Loop_mono in Hloop].
    destruct Hm as [->|Hm]; [|by eapply IH].
    destruct Hmove as (e & He & Ha & <-).
    eapply Loop_reached; [done|]. by apply In_connectedEdges.
  - intros n w m Hm. by apply fresh_none in Hm.
  - intros n e rest w w1 w' Hrun IHrun Hloop IHloop m Hm b Hmove.
    apply (fresh_split w w1) in Hm;
      [|by apply Run_mono in Hrun|by apply Loop_mono in Hloop].
    destruct Hm as [Hm|Hm]; [|by eapply IHloop].
    apply Loop_mono in Hloop. apply Hloop. by eapply IHrun.
Qed.

(** What a call adds to [path]: the nodes it enters and the ids of the
    edges connected to them. *)
Lemma Run_Loop_path :
  (forall n w w', Run E d n w w' ->
     forall y, y ∈ path w' <->
               y ∈ path w \/ fresh w w' y \/ idAnchoredIn E d (fresh w w') y)
  /\ (forall n l w w', Loop E d n l w w' ->
        forall y, y ∈ path w' <->
                  y ∈ path w \/ (exists e, In e l /\ edge_id e = y)
                  \/ fresh w w' y \/ idAnchoredIn E d (fresh w w') y).
Proof.
  apply Run_Loop_ind.
  - intros n w _ y. split; [by left|].
    intros [?|[H|(e & _ & _ & H)]]; [done| |]; by apply fresh_none in H.
  - intros n w w' Hn Hloop IH y.
    assert (Hsub : visited (enter n w) ⊆ visited w') by by apply Loop_mono in Hloop.
    rewrite IH. simpl. rewrite elem_of_union, elem_of_singleton. split.
    + intros [[Hy| ->]|[(e & He & Hid)|[Hy|(e & He & Hid & Hy)]]].
      * by left.
      * right. left. apply (fresh_enter n); [done|done|by left].
      * right. right. apply In_connectedEdges in He as [He Ha].
        exists e. repeat split; try done; rewrite Ha.
        -- apply Hsub. simpl. set_solver.
        -- done.
      * right. left. apply (fresh_enter n); [done|done|by right].
      * right. right. exists e. repeat split; try done;
          apply (fresh_enter n w w'); try done; by right.
    + intros [Hy|[Hy|(e & He & Hid & Hy)]].
      * left. by left.
      * apply (fresh_enter n) in Hy as [->|Hy]; [| |done|done].
        -- left. by right.
        -- right. right. by left.
      * apply (fresh_enter n) in Hy as [Ha|Hy]; [| |done|done].
        -- right. left. exists e. split; [|done]. by apply In_connectedEdges.
        -- right. right. right. by exists e.
  - intros n w y. split; [by left|].
    intros [?|[(e & [] & _)|[H|(e & _ & _ & H)]]]; [done| |];
      by apply fresh_none in H.
  - intros n e rest w w1 w' Hrun IHrun Hloop IHloop y.
    assert (H1 : visited w ⊆ visited w1) by by apply Run_mono in Hrun.
    assert (H2 : visited w1 ⊆ visited w') by by apply Loop_mono in Hloop.
    rewrite IHloop, IHrun. simpl. rewrite elem_of_union, elem_of_singleton.
    change (fresh (addToPath (edge_id e) w) w1) with (fresh w w1).
    split.
    + intros [[[Hy| ->]|[Hy|(e' & He' & Hid & Hy)]]
             |[(e' & He' & Hid)|[Hy|(e' & He' & Hid & Hy)]]].
      * by left.
      * right. left. exists e. split; [by left|done].
      * right. right. left. apply (fresh_split w w1); [done|done|by left].
      * right. right. right. exists e'. repeat split; try done;
          apply (fresh_split w w1 w'); try done; by left.
      * right. left. exists e'. split; [by right|done].
      * right. right. left. apply (fresh_split w w1); [done|done|by right].
      * right. right. right. exists e'. repeat split; try done;
          apply (fresh_split w w1 w'); try done; by right.
    + intros [Hy|[(e' & [<-|He'] & Hid)|[Hy|(e' & He' & Hid & Hy)]]].
      * left. left. by left.
      * left. left. by right.
      * right. left. by exists e'.
      * apply (fresh_split w w1) in Hy as [Hy|Hy]; [| |done|done].
        -- left. right. by left.
        -- right. right. by left.
      * apply (fresh_split w w1) in Hy as [Hy|Hy]; [| |done|done].
        -- left. right. right. by exists e'.
        -- right. right. right. by exists e'.
Qed.

(** The body runs past the guard once for each node entered. *)
Lemma Run_Loop_expanded :
  (forall n w w', Run E d n w w' ->
     exists k, expanded w' = expanded w ++ k /\ NoDup k
               /\ forall m, In m k <-> fresh w w' m)
  /\ (forall n l w w', Loop E d n l w w' ->
        exists k, expanded w' = expanded w ++ k /\ NoDup k
                  /\ forall m, In m k <-> fresh w w' m).
Proof.
  apply Run_Loop_ind.
  - intros n w _. exists []. rewrite app_nil_r.
    split; [done|]. split; [constructor|]. intros m. split; [intros []|].
    intros H. by apply fresh_none in H.
  - intros n w w' Hn Hloop (k & Hk & Hnd & Hin).
    assert (Hsub : visited (enter n w) ⊆ visited w') by by apply Loop_mono in Hloop.
    exists (n :: k). simpl in Hk. rewrite <- app_assoc in Hk. split; [done|]. split.
    + apply NoDup_cons. split; [|done].
      rewrite list_elem_of_In, Hin. intros [_ Hout]. simpl in Hout. set_solver.
    + intros m. rewrite (fresh_enter n w w' m) by done. simpl. rewrite Hin.
      split; intros [?|?]; auto.
  - intros n w. exists []. rewrite app_nil_r.
    split; [done|]. split; [constructor|]. intros m. split; [intros []|].
    intros H. by apply fresh_none in H.
  - intros n e rest w w1 w' Hrun (k1 & Hk1 & Hnd1 & Hin1) Hloop (k2 & Hk2 & Hnd2 & Hin2).
    assert (H1 : visited w ⊆ visited w1) by by apply Run_mono in Hrun.
    assert (H2 : visited w1 ⊆ visited w') by by apply Loop_mono in Hloop.
    exists (k1 ++ k2). simpl in Hk1. rewrite Hk2, Hk1, <- app_assoc.
    split; [done|]. split.
    + apply NoDup_app. split; [done|]. split; [|done].
      intros m. rewrite !list_elem_of_In, Hin1, Hin2.
      intros [Hm _] [_ Hm']. done.
    + intros m. rewrite in_app_iff, Hin1, Hin2.
      change (fresh (addToPath (edge_id e) w) w1 m) with (fresh w w1 m).
      by rewrite (fresh_split w w1 w').
Qed.

(** *** Termination *)

Lemma unvisited_bound start w : (unvisited E d start w <= S (length E))%nat.
Proof.
  unfold unvisited. etransitivity; [apply filter_length_le|].
  unfold candidates. simpl. by rewrite length_map.
Qed.

Lemma filter_length_mono {A} (p q : A -> bool) (l : list A) :
  (forall x, q x = true -> p x = true) ->
  (length (List.filter q l) <= length (List.filter p l))%nat.
Proof.
  intros Hpq. induction l as [|a l IH]; simpl; [done|].
  destruct (q a) eqn:Hq.
  - rewrite (Hpq a Hq). simpl. lia.
  - destruct (p a); simpl; lia.
Qed.

Lemma filter_length_strict {A} (p q : A -> bool) (l : list A) x :
  (forall y, q y = true -> p y = true) ->
  In x l -> p x = true -> q x = false ->
  (length (List.filter q l) < length (List.filter p l))%nat.
Proof.
  intros Hpq. induction l as [|a l IH]; simpl; [done|].
  intros [->|Hin] Hp Hq.
  - rewrite Hp, Hq. simpl. pose proof (filter_length_mono p q l Hpq). lia.
  - specialize (IH Hin Hp Hq). destruct (q a) eqn:Hqa.
    + rewrite (Hpq a Hqa). simpl. lia.
    + destruct (p a); simpl; lia.
Qed.

Lemma unvisited_mono start w w' :
  visited w ⊆ visited w' -> (unvisited E d start w' <= unvisited E d start w)%nat.
Proof.
  intros Hsub. apply filter_length_mono. intros c.
  rewrite !negb_true_iff, !bool_decide_eq_false. set_solver.
Qed.

Lemma unvisited_enter start n w :
  In n (candidates E d start) -> n ∉ visited w ->
  (unvisited E d start (enter n w) < unvisited E d start w)%nat.
Proof.
  intros Hin Hout. apply (filter_length_strict _ _ _ n); [|done| |].
  - intros c. rewrite !negb_true_iff, !bool_decide_eq_false. simpl. set_solver.
  - by rewrite negb_true_iff, bool_decide_eq_false.
  - rewrite negb_false_iff, bool_decide_eq_true. simpl. set_solver.
Qed.

Lemma traverse_unfold fuel n w :
  traverse (S fuel) E n d w =
  if bool_decide (n ∈ visited w) then Some w
  else forEachM (fun edge w =>
                   traverse fuel E (nextNodeId d edge) d
                            (addToPath (edge_id edge) w))
                (List.filter (connected d n) E) (enter n w).
Proof. reflexivity. Qed.

(** With more fuel than candidates outside [visited], a call returns. *)
Lemma traverse_total start fuel :
  forall n w,
    In n (candidates E d start) -> (unvisited E d start w < fuel)%nat ->
    is_Some (traverse fuel E n d w).
Proof.
  induction fuel as [|fuel IH]; intros n w Hn Hfuel; [lia|].
  rewrite traverse_unfold. case_bool_decide as Hseen; [by eauto|].
  pose proof (unvisited_enter start n w Hn Hseen) as Hless.
  assert (Hloop : forall l w1,
             (forall e, In e l -> In e E) -> (unvisited E d start w1 < fuel)%nat ->
             is_Some (forEachM (fun edge w =>
                                  traverse fuel E (nextNodeId d edge) d
                                           (addToPath (edge_id edge) w)) l w1)).
  { induction l as [|e l IHl]; intros w1 Hl Hw1; simpl; [by eauto|].
    destruct (IH (nextNodeId d e) (addToPath (edge_id e) w1)) as [w2 Hcall].
    - right. apply in_map. apply Hl. by left.
    - done.
    - rewrite Hcall. apply IHl; [intros e' ?; apply Hl; by right|].
      apply traverse_Run, Run_mono in Hcall. simpl in Hcall.
      pose proof (unvisited_mono start w1 w2 Hcall). lia. }
  apply Hloop; [|lia]. intros e He. by apply filter_In in He as [? _].
Qed.

(** More fuel does not change what a call returns. *)
Lemma traverse_fuel_S fuel :
  forall n w w', traverse fuel E n d w = Some w' ->
                 traverse (S fuel) E n d w = Some w'.
Proof.
  induction fuel as [|fuel IH]; intros n w w'; [done|].
  rewrite (traverse_unfold (S fuel)), (traverse_unfold fuel).
  case_bool_decide; [done|].
  generalize (enter n w). generalize (List.filter (connected d n) E).
  induction l as [|e l IHl]; intros w1; cbn [forEachM]; [done|].
  destruct (traverse fuel E _ d _) as [w2|] eqn:Hcall; [|done].
  rewrite (IH _ _ _ Hcall). apply IHl.
Qed.

Lemma traverse_fuel_le fuel fuel' n w w' :
  (fuel <= fuel')%nat -> traverse fuel E n d w = Some w' ->
  traverse fuel' E n d w = Some w'.
Proof.
  induction 1 as [|fuel' _ IH]; [done|]. intros H.
  by apply traverse_fuel_S, IH.
Qed.

(** The fuel of [getFlowPath] is enough for a call on the start node. *)
Lemma traverse_start_total start w :
  is_Some (traverse (fuelFor E) E start d w).
Proof.
  apply (traverse_total start); [by left|].
  pose proof (unvisited_bound start w). unfold fuelFor. lia.
Qed.

(** *** A traversal started with nothing visited *)

Lemma Run_from_clear n w w' :
  Run E d n w w' -> visited w = ∅ -> expanded w = [] ->
  (forall m, m ∈ visited w' <-> rtc (moves E d) n m)
  /\ (forall y, y ∈ path w' <->
                y ∈ path w \/ rtc (moves E d) n y
                \/ idAnchoredIn E d (fun m => rtc (moves E d) n m) y)
  /\ NoDup (expanded w')
  /\ (forall m, In m (expanded w') <-> rtc (moves E d) n m).
Proof.
  intros Hrun Hclear Hlog.
  assert (Hfresh : forall m, fresh w w' m <-> m ∈ visited w').
  { intros m. unfold fresh. rewrite Hclear. set_solver. }
  assert (Hreach : forall m, m ∈ visited w' <-> rtc (moves E d) n m).
  { intros m. split.
    - intros Hm. apply (proj1 Run_Loop_sound n w w' Hrun). by apply Hfresh.
    - revert m. apply (rtc_ind_r (fun m => m ∈ visited w')).
      + by apply Run_reached in Hrun.
      + intros a b _ Hmove IH.
        apply (proj1 Run_Loop_closed n w w' Hrun a); [by apply Hfresh|done]. }
  split; [done|]. split; [|split].
  - intros y. rewrite (proj1 Run_Loop_path n w w' Hrun y).
    rewrite Hfresh, Hreach. apply or_iff_both; [done|].
    apply or_iff_both; [done|]. unfold idAnchoredIn.
    split; intros (e & He & Hid & Ha); exists e; (split; [done|]); (split; [done|]).
    + apply Hreach. by apply Hfresh in Ha.
    + apply Hfresh. by apply Hreach in Ha.
  - destruct (proj1 Run_Loop_expanded n w w' Hrun) as (k & Hk & Hnd & _).
    rewrite Hk, Hlog. done.
  - intros m. destruct (proj1 Run_Loop_expanded n w w' Hrun) as (k & Hk & _ & Hin).
    rewrite Hk, Hlog. simpl. by rewrite Hin, Hfresh, Hreach.
Qed.

End TraversalFacts.

(** ** Directed paths *)

Lemma moves_downstream edges a b : moves edges downstream a b <-> edgeTo edges a b.
Proof. reflexivity. Qed.

Lemma moves_upstream edges a b : moves edges upstream a b <-> edgeTo edges b a.
Proof.
  unfold moves, edgeTo, anchor, nextNodeId.
  split; intros (e & He & H1 & H2); by exists e.
Qed.

Lemma rtc_moves_downstream edges a b :
  rtc (moves edges downstream) a b <-> pathBetween edges a b.
Proof. reflexivity. Qed.

Lemma rtc_moves_upstream edges a b :
  rtc (moves edges upstream) a b <-> pathBetween edges b a.
Proof.
  unfold pathBetween. split.
  - intros H. induction H as [x|x y z Hxy _ IH]; [done|].
    eapply rtc_r; [done|]. by apply moves_upstream.
  - intros H. induction H as [x|x y z Hxy _ IH]; [done|].
    eapply rtc_r; [done|]. by apply moves_upstream.
Qed.

(** ** Settled properties of the highlighter *)

(** The two traversals of [getFlowPath] return, and what they leave behind. *)
Lemma getFlowPath_runs edges start :
  exists up down,
    traverse (fuelFor edges) edges start upstream startWalk = Some up
    /\ traverse (fuelFor edges) edges start downstream (clearVisited up) = Some down
    /\ getFlowPath edges start = Some (path down)
    /\ (forall y, y ∈ path down <->
                  pathBetween edges y start \/ pathBetween edges start y
                  \/ exists e, In e edges /\ edge_id e = y
                               /\ (pathBetween edges (target e) start
                                   \/ pathBetween edges start (source e)))
    /\ NoDup (expanded up) /\ NoDup (expanded down)
    /\ (forall m, In m (expanded up) <-> pathBetween edges m start)
    /\ (forall m, In m (expanded down) <-> pathBetween edges start m).
Proof.
  destruct (traverse_start_total edges upstream start startWalk) as [up Hup].
  destruct (traverse_start_total edges downstream start (clearVisited up))
    as [down Hdown].
  exists up, down. split; [done|]. split; [done|]. split.
  { unfold getFlowPath, getFlowPathWith. by rewrite Hup, Hdown. }
  destruct (Run_from_clear edges upstream start startWalk up)
    as (_ & Hpath_up & Hnd_up & Hin_up); [by eapply traverse_Run|done|done|].
  destruct (Run_from_clear edges downstream start (clearVisited up) down)
    as (_ & Hpath_down & Hnd_down & Hin_down); [by eapply traverse_Run|done|done|].
  split; [|split; [done|split; [done|split]]].
  - intros y. rewrite Hpath_down. simpl. rewrite Hpath_up. simpl.
    rewrite rtc_moves_upstream, rtc_moves_downstream. unfold idAnchoredIn. split.
    + intros [[Hy|[Hy|(e & He & Hid & Hy)]]|[Hy|(e & He & Hid & Hy)]].
      * set_solver.
      * by left.
      * right. right. exists e. split; [done|]. split; [done|].
        left. by apply rtc_moves_upstream in Hy.
      * right. by left.
      * right. right. exists e. split; [done|]. split; [done|]. by right.
    + intros [Hy|[Hy|(e & He & Hid & [Hy|Hy])]].
      * left. right. by left.
      * right. by left.
      * left. right. right. exists e. split; [done|]. split; [done|].
        by apply rtc_moves_upstream.
      * right. right. by exists e.
  - intros m. by rewrite Hin_up, rtc_moves_upstream.
  - intros m. by rewrite Hin_down, rtc_moves_downstream.
Qed.

(** C3, as the code has it.  The result of [getFlowPath] holds node ids and
    edge ids in one set.  It contains [y] exactly when there is a directed
    path from the start to [y], or from [y] to the start, or [y] is the id of
    an edge picked up on the way: an edge whose target leads to the start or
    whose source is reached from it.  For a [y] that is not the id of any
    edge this is the existence of a path in one of the two directions. *)
Theorem C3_highlight_membership edges start :
  exists result,
    getFlowPath edges start = Some result
    /\ forall y,
         (y ∈ result <->
            pathBetween edges start y \/ pathBetween edges y start
            \/ exists e, In e edges /\ edge_id e = y
                         /\ (pathBetween edges (target e) start
                             \/ pathBetween edges start (source e)))
         /\ ((forall e, In e edges -> edge_id e <> y) ->
             (y ∈ result <->
                pathBetween edges start y \/ pathBetween edges y start)).
Proof.
  destruct (getFlowPath_runs edges start) as (up & down & _ & _ & Hr & Hpath & _).
  exists (path down). split; [done|]. intros y.
  assert (Hy : y ∈ path down <->
               pathBetween edges start y \/ pathBetween edges y start
               \/ exists e, In e edges /\ edge_id e = y
                            /\ (pathBetween edges (target e) start
                                \/ pathBetween edges start (source e))).
  { rewrite Hpath. tauto. }
  split; [done|]. intros Hnoid. rewrite Hy. split; [|tauto].
  intros [?|[?|(e & He & Hid & _)]]; [tauto|tauto|]. by apply Hnoid in He.
Qed.

Lemma C3_highlight_membership_witness :
  exists result,
    getFlowPath [mkEdge "br" "ex" false] "br" = Some result
    /\ ("ex" ∈ result <->
          pathBetween [mkEdge "br" "ex" false] "br" "ex"
          \/ pathBetween [mkEdge "br" "ex" false] "ex" "br").
Proof.
  destruct (C3_highlight_membership [mkEdge "br" "ex" false] "br") as (r & Hr & H).
  exists r. split; [exact Hr|]. apply (proj2 (H "ex")).
  intros e [<-|[]]. discriminate.
Defined.

(** The only edge of that graph, [br -> ex], has the id of the node
    [br-ex]: highlighting [br] puts [br-ex] in the result although no path
    joins the two. *)
Lemma C3_unreachable_node_is_highlighted :
  let g := buildGraph brExInterfaces [] [] in
  nodeIds g = ["br"; "ex"; "br-ex"]
  /\ initialEdges g = [mkEdge "br" "ex" false]
  /\ (exists result, getFlowPath (initialEdges g) "br" = Some result
                     /\ "br-ex" ∈ result)
  /\ ~ pathBetween (initialEdges g) "br" "br-ex"
  /\ ~ pathBetween (initialEdges g) "br-ex" "br".
Proof.
  cbv zeta. change (initialEdges (buildGraph brExInterfaces [] []))
    with [mkEdge "br" "ex" false].
  split; [reflexivity|]. split; [reflexivity|]. split; [|split].
  - destruct (getFlowPath_runs [mkEdge "br" "ex" false] "br")
      as (up & down & _ & _ & Hr & Hpath & _).
    exists (path down). split; [done|]. apply Hpath.
    right. right. exists (mkEdge "br" "ex" false).
    split; [by left|]. split; [reflexivity|]. right. simpl. apply rtc_refl.
  - intros H. apply rtc_inv in H as [H|(z & (e & [<-|[]] & _ & Ht) & H)];
      [discriminate|]. simpl in Ht. subst z.
    apply rtc_inv in H as [H|(z & (e & [<-|[]] & Hs & _) & _)]; discriminate.
  - intros H. apply rtc_inv in H as [H|(z & (e & [<-|[]] & Hs & _) & _)];
      discriminate.
Qed.

Lemma pathBetween_from_isolated edges a b :
  (forall e, In e edges -> source e <> a) -> pathBetween edges a b -> b = a.
Proof.
  intros Hnone H. apply rtc_inv in H as [H|(z & (e & He & Hs & _) & _)]; [done|].
  by apply Hnone in He.
Qed.

Lemma pathBetween_to_isolated edges a b :
  (forall e, In e edges -> target e <> b) -> pathBetween edges a b -> a = b.
Proof.
  intros Hnone H. apply rtc_inv_r in H as [H|(z & _ & (e & He & _ & Ht))]; [done|].
  by apply Hnone in He.
Qed.

(** C5, as the code has it.  [getFlowPath] looks no node up.  For a start id
    that names no node it returns all the same, and its result is not empty:
    it holds the start id, and nothing else when every edge joins ids of
    nodes. *)
Theorem C5_missing_start_is_highlighted (nodes : list Node) edges start
    (Hmissing : ~ In start (map id nodes)) :
  exists result,
    getFlowPath edges start = Some result
    /\ start ∈ result
    /\ ((forall e, In e edges ->
                   In (source e) (map id nodes) /\ In (target e) (map id nodes)) ->
        result = {[start]}).
Proof.
  destruct (getFlowPath_runs edges start) as (up & down & _ & _ & Hr & Hpath & _).
  exists (path down). split; [done|]. split.
  - apply Hpath. left. apply rtc_refl.
  - intros Hjoined.
    assert (Hsrc : forall e, In e edges -> source e <> start).
    { intros e He Heq. apply Hmissing. rewrite <- Heq. by apply Hjoined. }
    assert (Htgt : forall e, In e edges -> target e <> start).
    { intros e He Heq. apply Hmissing. rewrite <- Heq. by apply Hjoined. }
    apply set_eq. intros y. rewrite Hpath, elem_of_singleton. split.
    + intros [H|[H|(e & He & _ & [H|H])]].
      * by apply pathBetween_to_isolated in H.
      * by apply pathBetween_from_isolated in H.
      * apply pathBetween_to_isolated in H; [|done]. by apply Htgt in He.
      * apply pathBetween_from_isolated in H; [|done]. by apply Hsrc in He.
    + intros ->. left. apply rtc_refl.
Qed.

Lemma C5_missing_start_is_highlighted_witness :
  exists result,
    getFlowPath (initialEdges (buildGraph [eth0] [] [])) "br0" = Some result
    /\ "br0" ∈ result.
Proof.
  destruct (C5_missing_start_is_highlighted
              (initialNodes (buildGraph [eth0] [] []))
              (initialEdges (buildGraph [eth0] [] [])) "br0")
    as (r & Hr & Hin & _).
  - simpl. intros [H|[]]. discriminate.
  - exists r. split; [exact Hr | exact Hin].
Defined.

(** After a recompute that left only [eth0], the id [br0] of the node that
    was selected names no node; highlighting it gives the set holding
    [br0], not the empty set. *)
Lemma C5_result_for_missing_start_is_not_empty :
  let g := buildGraph [eth0] [] [] in
  ~ In "br0" (nodeIds g)
  /\ getFlowPath (initialEdges g) "br0" = Some {["br0"]}
  /\ getFlowPath (initialEdges g) "br0" <> Some ∅.
Proof.
  cbv zeta. split; [|split].
  - simpl. intros [H|[]]. discriminate.
  - vm_compute. reflexivity.
  - vm_compute. discriminate.
Qed.

(** C8.  For every edge list, cyclic or not, and every start node both
    traversals of [getFlowPath] return within its fuel, and more fuel
    changes nothing.  In each direction the body runs past the [visited]
    guard at most once per node id: upstream exactly for the nodes that lead
    to the start, downstream exactly for the nodes reached from it.  The
    downstream traversal starts from a cleared [visited], so a node entered
    upstream that is also reached from the start is entered again. *)
Theorem C8_traversal_terminates edges start :
  exists up down,
    traverse (fuelFor edges) edges start upstream startWalk = Some up
    /\ traverse (fuelFor edges) edges start downstream (clearVisited up) = Some down
    /\ (forall fuel, (fuelFor edges <= fuel)%nat ->
                     getFlowPathWith fuel edges start = Some (path down))
    /\ NoDup (expanded up) /\ NoDup (expanded down)
    /\ (forall m, In m (expanded up) <-> pathBetween edges m start)
    /\ (forall m, In m (expanded down) <-> pathBetween edges start m)
    /\ (forall m, In m (expanded up) -> pathBetween edges start m ->
                  In m (expanded down)).
Proof.
  destruct (getFlowPath_runs edges start)
    as (up & down & Hup & Hdown & _ & _ & Hnd_up & Hnd_down & Hin_up & Hin_down).
  exists up, down. repeat (split; [done|]). split.
  - intros fuel Hfuel. unfold getFlowPathWith.
    rewrite (traverse_fuel_le edges upstream _ fuel _ _ _ Hfuel Hup).
    by rewrite (traverse_fuel_le edges downstream _ fuel _ _ _ Hfuel Hdown).
  - repeat (split; [done|]). intros m _ Hpath. by apply Hin_down.
Qed.

Lemma C8_traversal_terminates_witness :
  exists up down,
    traverse (fuelFor cycleEdges) cycleEdges "a" upstream startWalk = Some up
    /\ traverse (fuelFor cycleEdges) cycleEdges "a" downstream (clearVisited up)
       = Some down
    /\ getFlowPathWith 10 cycleEdges "a" = Some (path down)
    /\ (In "b" (expanded up) -> In "b" (expanded down)).
Proof.
  destruct (C8_traversal_terminates cycleEdges "a")
    as (up & down & Hup & Hdown & Hfuel & _ & _ & _ & _ & Hagain).
  exists up, down. split; [exact Hup|]. split; [exact Hdown|]. split.
  - apply Hfuel. unfold fuelFor. simpl. lia.
  - intros Hb. apply (Hagain "b" Hb).
    eapply rtc_l; [|apply rtc_refl].
    exists (mkEdge "a" "b" false). split; [by left|]. split; reflexivity.
Defined.

Example traverse_on_a_cycle :
  option_map expanded
    (traverse (fuelFor cycleEdges) cycleEdges "a" upstream startWalk)
  = Some ["a"; "b"]
  /\ getFlowPath cycleEdges "a" = Some {["a"; "b"; "a-b"; "b-a"]}.
Proof. split; vm_compute; reflexivity. Qed.

(** Scenario A+B+C of the specification: highlighting [br0]. *)
Example highlight_br0 :
  let g := buildGraph [plainIface "eth0" "ethernet" (Some "br0");
                       plainIface "br0" "ovs-bridge" None]
                      [{| Mapping.localnet := "physnet1"; Mapping.bridge := Some "br0" |}]
                      [localnetCudn "net-a" (Some "physnet1") None []] in
  getFlowPath (initialEdges g) "br0" =
  Some {["eth0"; "br0"; "ovn-physnet1"; "cudn-net-a";
         "eth0-br0"; "br0-ovn-physnet1"; "ovn-physnet1-cudn-net-a"]}.
Proof. vm_compute. reflexivity. Qed.

(** * Further properties of the graph builder *)

Lemma nodesAdded_interfaceStep interfaces iface :
  nodesAdded (interfaceStep interfaces iface) = [interfaceNode interfaces iface].
Proof.
  unfold nodesAdded, interfaceStep, whenTruthy.
  repeat case_match; reflexivity.
Qed.

Lemma nodesAdded_mappingStep mapping :
  nodesAdded (mappingStep mapping) = [mappingNode mapping].
Proof.
  unfold nodesAdded, mappingStep, whenTruthy. repeat case_match; reflexivity.
Qed.

Lemma nodesAdded_cudnStep cudn : nodesAdded (cudnStep cudn) = [cudnNode cudn].
Proof.
  unfold nodesAdded, cudnStep, whenTruthy. repeat case_match; reflexivity.
Qed.

Lemma flat_map_singleton {A B} (f : A -> B) (l : list A) :
  flat_map (fun a => [f a]) l = map f l.
Proof. induction l as [|a l IH]; simpl; [done|]. by rewrite IH. Qed.

Lemma flat_map_pointwise {A B} (f h : A -> list B) (l : list A) :
  (forall a, f a = h a) -> flat_map f l = flat_map h l.
Proof. intros E. induction l as [|a l IH]; simpl; [done|]. by rewrite E, IH. Qed.

Lemma buildGraph_node_list interfaces bridgeMappings cudns :
  initialNodes (buildGraph interfaces bridgeMappings cudns) =
  map (interfaceNode interfaces) interfaces
  ++ map mappingNode bridgeMappings
  ++ map cudnNode cudns
  ++ attachmentNodes cudns.
Proof.
  rewrite buildGraph_nodes. unfold attachmentNodes.
  rewrite <- !flat_map_singleton.
  rewrite (flat_map_pointwise _ _ interfaces (nodesAdded_interfaceStep interfaces)).
  rewrite (flat_map_pointwise _ _ bridgeMappings nodesAdded_mappingStep).
  rewrite (flat_map_pointwise _ _ cudns nodesAdded_cudnStep).
  rewrite (flat_map_pointwise _ _ cudns nodesAdded_attachmentStep).
  done.
Qed.

Lemma length_attachmentNodes cudns :
  length (attachmentNodes cudns) = sum_list_with (fun c => fires (attachmentGroup c)) cudns.
Proof.
  unfold attachmentNodes. rewrite length_flat_map.
  apply sum_list_with_pointwise. intros c. unfold fires.
  destruct (attachmentGroup c) as [grp|] eqn:Hg; [|done].
  assert (Js.truthy (Some grp) = true) as ->; [|done].
  unfold attachmentGroup in Hg. repeat case_match; congruence.
Qed.

(** X1.  The node list of a built graph is, in this order: one node per
    interface in input order, with the interface name as id and label, the
    style of its classified type and the record itself as [original]; one
    [ovn-<localnet>] node per mapping; one [cudn-<name>] node per CUDN; one
    attachment node per CUDN whose condition message parses.  Nothing is
    dropped or merged: the number of nodes is the sum of these. *)
Theorem built_nodes_in_pass_order interfaces bridgeMappings cudns :
  let g := buildGraph interfaces bridgeMappings cudns in
  initialNodes g =
    map (interfaceNode interfaces) interfaces
    ++ map mappingNode bridgeMappings
    ++ map cudnNode cudns
    ++ attachmentNodes cudns
  /\ nodeIds g =
       map Iface.name interfaces
       ++ map (fun m => "ovn-" +:+ Mapping.localnet m) bridgeMappings
       ++ map (fun c => "cudn-" +:+ cudnName c) cudns
       ++ map id (attachmentNodes cudns)
  /\ length (initialNodes g) =
       (length interfaces + length bridgeMappings + length cudns
        + sum_list_with (fun c => fires (attachmentGroup c)) cudns)%nat.
Proof.
  cbv zeta. unfold nodeIds. rewrite buildGraph_node_list. split; [done|]. split.
  - rewrite !map_app, !map_map. done.
  - rewrite !length_app, !length_map, length_attachmentNodes. lia.
Qed.

Lemma In_attachmentNodes_id cudns x :
  In x (map id (attachmentNodes cudns)) <->
  exists c, In c cudns /\ attachmentGroup c <> None
            /\ x = "attachment-" +:+ cudnName c.
Proof.
  unfold attachmentNodes. rewrite in_map_iff. split.
  - intros (n & <- & Hn). apply in_flat_map in Hn as (c & Hc & Hn).
    exists c. destruct (attachmentGroup c); [|done].
    destruct Hn as [<-|[]]. done.
  - intros (c & Hc & Hg & ->). destruct (attachmentGroup c) as [grp|] eqn:E; [|done].
    exists (attachmentNode c (parseNamespaces grp)). split; [done|].
    apply in_flat_map. exists c. split; [done|]. rewrite E. by left.
Qed.

Lemma In_nodeIds interfaces bridgeMappings cudns x :
  In x (nodeIds (buildGraph interfaces bridgeMappings cudns)) <->
  In x (map Iface.name interfaces)
  \/ In x (map (fun m => "ovn-" +:+ Mapping.localnet m) bridgeMappings)
  \/ In x (map (fun c => "cudn-" +:+ cudnName c) cudns)
  \/ (exists c, In c cudns /\ attachmentGroup c <> None
                 /\ x = "attachment-" +:+ cudnName c).
Proof.
  unfold nodeIds. rewrite buildGraph_node_list, !map_app, !in_app_iff, !map_map.
  simpl. by rewrite In_attachmentNodes_id.
Qed.

Lemma prefix_inj (prefix s t : string) : prefix +:+ s = prefix +:+ t -> s = t.
Proof.
  induction prefix as [|c prefix IH]; [done|]. intros H.
  injection H as H. by apply IH.
Qed.

Lemma NoDup_map_prefix {A} (prefix : string) (f : A -> string) (l : list A) :
  NoDup (map f l) -> NoDup (map (fun a => prefix +:+ f a) l).
Proof.
  intros H. rewrite <- (map_map f (fun s => prefix +:+ s)).
  assert (Hinj : Inj (=) (=) (fun s => prefix +:+ s)).
  { intros s t. apply prefix_inj. }
  by apply (NoDup_fmap_2 (fun s => prefix +:+ s)).
Qed.

Lemma NoDup_attachment_ids cudns :
  NoDup (map cudnName cudns) -> NoDup (map id (attachmentNodes cudns)).
Proof.
  induction cudns as [|c cudns IH]; simpl; [constructor|].
  intros Hnd. apply NoDup_cons in Hnd as [Hc Hnd]. specialize (IH Hnd).
  unfold attachmentNodes in *. simpl.
  destruct (attachmentGroup c) as [grp|]; [|done]. simpl.
  apply NoDup_cons. split; [|done].
  rewrite list_elem_of_In. intros Hin.
  apply In_attachmentNodes_id in Hin as (c' & Hc' & _ & Heq).
  apply prefix_inj in Heq. apply Hc. rewrite list_elem_of_In, Heq. by apply in_map.
Qed.

(** X2.  Node ids are unique when interface names, mapping localnets and
    CUDN names are each unique and no interface is named like a synthesized
    [ovn-], [cudn-] or [attachment-] id of the same input.  The three
    synthesized families never collide with each other. *)
Theorem node_ids_unique interfaces bridgeMappings cudns
    (Hifaces : NoDup (map Iface.name interfaces))
    (Hmappings : NoDup (map Mapping.localnet bridgeMappings))
    (Hcudns : NoDup (map cudnName cudns))
    (Havoid : namesAvoidSynthesizedIds interfaces bridgeMappings cudns) :
  NoDup (nodeIds (buildGraph interfaces bridgeMappings cudns)).
Proof.
  unfold nodeIds. rewrite buildGraph_node_list, !map_app, !map_map. simpl.
  apply NoDup_app. split; [done|]. split.
  { intros x Hx Hrest. rewrite list_elem_of_In in Hx.
    apply in_map_iff in Hx as (i & <- & Hi). destruct (Havoid i Hi) as [Hovn Hcudn].
    rewrite !elem_of_app, !list_elem_of_In in Hrest.
    destruct Hrest as [H|[H|H]].
    - apply in_map_iff in H as (m & Hm & Hin). by apply (Hovn m Hin).
    - apply in_map_iff in H as (c & Hc & Hin).
      destruct (Hcudn c Hin) as [Hne _]. by apply Hne.
    - apply In_attachmentNodes_id in H as (c & Hin & _ & Hc).
      destruct (Hcudn c Hin) as [_ Hne]. by apply Hne. }
  apply NoDup_app. split; [by apply (NoDup_map_prefix "ovn-")|]. split.
  { intros x Hx Hrest. rewrite list_elem_of_In in Hx.
    apply in_map_iff in Hx as (m & <- & _).
    rewrite elem_of_app, !list_elem_of_In in Hrest. destruct Hrest as [H|H].
    - apply in_map_iff in H as (c & Hc & _). discriminate Hc.
    - apply In_attachmentNodes_id in H as (c & _ & _ & Hc). discriminate Hc. }
  apply NoDup_app. split; [by apply (NoDup_map_prefix "cudn-")|]. split.
  { intros x Hx Hrest. rewrite list_elem_of_In in *.
    apply in_map_iff in Hx as (c & <- & _).
    apply In_attachmentNodes_id in Hrest as (c' & _ & _ & Hc). discriminate Hc. }
  by apply NoDup_attachment_ids.
Qed.

Lemma node_ids_unique_witness :
  NoDup (nodeIds (buildGraph scenarioInterfaces scenarioMappings scenarioCudns)).
Proof.
  apply node_ids_unique.
  - vm_compute. repeat constructor; set_solver.
  - vm_compute. repeat constructor; set_solver.
  - vm_compute. repeat constructor; set_solver.
  - intros i Hi. split.
    + intros m [<-|[]]. destruct Hi as [<-|[<-|[]]]; discriminate.
    + intros c [<-|[]]. destruct Hi as [<-|[<-|[]]]; split; discriminate.
Defined.

(** X3.  The border [addNode] picks tells the eight styled types apart: two
    of them with the same border are the same type.  Every other type, such
    as [mac-vlan], [dummy] or [ovs-port], keeps the plain grey style. *)
Theorem style_tells_types_apart :
  (forall t1 t2, In t1 styledTypes -> In t2 styledTypes ->
                 border (styleOf t1) = border (styleOf t2) -> t1 = t2)
  /\ (forall t, ~ In t styledTypes -> styleOf t = plainStyle).
Proof.
  split.
  - intros t1 t2 H1 H2. simpl in H1, H2.
    decompose [or] H1; decompose [or] H2; subst; try done; vm_compute; discriminate.
  - intros t Ht. unfold styleOf.
    cbv zeta.
    repeat match goal with
           | |- context [String.eqb t ?s] =>
               destruct (String.eqb_spec t s) as [->|_];
               [exfalso; apply Ht; simpl; tauto|]
           end.
    reflexivity.
Qed.

Lemma style_tells_types_apart_witness :
  styleOf "mac-vlan" = plainStyle.
Proof.
  apply (proj2 style_tells_types_apart).
  simpl. intuition discriminate.
Defined.

(** X4.  The base interface of an interface is [vlan.base-iface] when that is
    a non-empty name and [mac-vlan.base-iface] otherwise.  Its edge runs from
    the base interface to the derived one, the reverse of the controller
    edge, and is the last edge the interfaces pass adds for the interface. *)
Theorem base_iface_edge interfaces iface b g
    (Hbase : Js.chain (Iface.vlan iface) Iface.base_iface = Some b
             \/ (Js.truthy (Js.chain (Iface.vlan iface) Iface.base_iface) = false
                 /\ Js.chain (Iface.mac_vlan iface) Iface.base_iface = Some b))
    (Hb : b <> "") :
  baseIfaceOf iface = Some b
  /\ initialEdges (interfaceStep interfaces iface g) =
       initialEdges g
       ++ edgeWhen (masterOf iface)
                   (fun master => mkEdge (Iface.name iface) master false)
       ++ [mkEdge b (Iface.name iface) false]
  /\ source (mkEdge b (Iface.name iface) false) = b
  /\ target (mkEdge b (Iface.name iface) false) = Iface.name iface.
Proof.
  assert (Hbo : baseIfaceOf iface = Some b).
  { unfold baseIfaceOf. destruct Hbase as [H|[H1 H2]].
    - by apply or_left.
    - by rewrite or_right. }
  split; [done|]. split; [|done].
  rewrite step_edges by apply appending_interfaceStep.
  by rewrite edgesAdded_interfaceStep, Hbo, (edgeWhen_Some b).
Qed.

Lemma base_iface_edge_witness :
  initialEdges (interfaceStep [] (vlanIface "vlan10" "eth0") emptyGraph)
  = [mkEdge "eth0" "vlan10" false].
Proof.
  pose proof (base_iface_edge [] (vlanIface "vlan10" "eth0") "eth0" emptyGraph
                (or_introl eq_refl) ltac:(discriminate)) as (_ & H & _).
  exact H.
Defined.

Lemma In_map_name interfaces i : In i interfaces -> In (Iface.name i) (map Iface.name interfaces).
Proof. apply in_map. Qed.

(** X5.  Only the referenced end of an edge can dangle.  Every edge of a
    built graph has an end that is the id of a built node: the source of a
    controller edge, the target of a base interface, bridge mapping or CUDN
    edge; an edge with [animated] set has both. *)
Theorem every_edge_has_a_built_end interfaces bridgeMappings cudns e :
  let g := buildGraph interfaces bridgeMappings cudns in
  In e (initialEdges g) ->
  (In (source e) (nodeIds g) \/ In (target e) (nodeIds g))
  /\ (animated e = true -> In (source e) (nodeIds g) /\ In (target e) (nodeIds g)).
Proof.
  cbv zeta. intros He. apply buildGraph_edge_In in He.
  destruct He as [(i & Hi & [H|H])|[(m & Hm & H)|[(c & Hc & H)|(c & Hc & Hg & ->)]]];
    try (apply edgeWhen_In in H; destruct H as (s & _ & _ & ->));
    cbn [source target animated mkEdge].
  - split; [|done]. left. apply In_nodeIds. left. by apply in_map.
  - split; [|done]. right. apply In_nodeIds. left. by apply in_map.
  - split; [|done]. right. apply In_nodeIds. right. left.
    by apply (in_map (fun m => "ovn-" +:+ Mapping.localnet m)).
  - split; [|done]. right. apply In_nodeIds. right. right. left.
    by apply (in_map (fun c => "cudn-" +:+ cudnName c)).
  - assert (Hs : In (source (attachmentEdge c))
                    (nodeIds (buildGraph interfaces bridgeMappings cudns))).
    { apply In_nodeIds. right. right. left.
      by apply (in_map (fun c => "cudn-" +:+ cudnName c)). }
    assert (Ht : In (target (attachmentEdge c))
                    (nodeIds (buildGraph interfaces bridgeMappings cudns))).
    { apply In_nodeIds. right. right. right. by exists c. }
    split; [by left|done].
Qed.

Lemma every_edge_has_a_built_end_witness :
  In "br-missing"
     (nodeIds (buildGraph [eth0] [physnet1_on_missing_bridge] [net_a_on_physnet2]))
  \/ In "ovn-physnet1"
        (nodeIds (buildGraph [eth0] [physnet1_on_missing_bridge] [net_a_on_physnet2])).
Proof.
  apply (every_edge_has_a_built_end [eth0] [physnet1_on_missing_bridge]
           [net_a_on_physnet2] (mkEdge "br-missing" "ovn-physnet1" false)).
  vm_compute. tauto.
Defined.

(** X6.  When every name the input refers to is there, no edge of the built
    graph dangles: both ends of every edge are ids of built nodes. *)
Theorem no_dangling_edge_when_references_resolve interfaces bridgeMappings cudns
    (Hresolve : referencesResolve interfaces bridgeMappings cudns) :
  let g := buildGraph interfaces bridgeMappings cudns in
  forall e, In e (initialEdges g) ->
            In (source e) (nodeIds g) /\ In (target e) (nodeIds g).
Proof.
  cbv zeta. destruct Hresolve as (Hifaces & Hbridges & Hnets). intros e He.
  apply buildGraph_edge_In in He.
  destruct He as [(i & Hi & [H|H])|[(m & Hm & H)|[(c & Hc & H)|(c & Hc & Hg & ->)]]];
    try (apply edgeWhen_In in H; destruct H as (s & Hs & Hne & ->)); simpl;
    rewrite !In_nodeIds.
  - split; left; [by apply in_map | by apply (Hifaces i s); auto].
  - split; left; [by apply (Hifaces i s); auto | by apply in_map].
  - split; [left; by apply (Hbridges m s) |].
    right. left. by apply (in_map (fun m => "ovn-" +:+ Mapping.localnet m)).
  - split.
    + right. left. apply (Hnets c s) in Hc; [|done|done].
      apply in_map_iff in Hc as (m & <- & Hm).
      by apply (in_map (fun m => "ovn-" +:+ Mapping.localnet m)).
    + right. right. left. by apply (in_map (fun c => "cudn-" +:+ cudnName c)).
  - split.
    + right. right. left. by apply (in_map (fun c => "cudn-" +:+ cudnName c)).
    + right. right. right. by exists c.
Qed.

Lemma scenario_references_resolve :
  referencesResolve scenarioInterfaces scenarioMappings scenarioCudns.
Proof.
  split; [|split].
  - intros i s [<-|[<-|[]]] [H|H]; try discriminate H.
    injection H as <-. intros _. right. by left.
  - intros m s [<-|[]] H. injection H as <-. intros _. right. by left.
  - intros c s [<-|[]] H. injection H as <-. intros _. by left.
Defined.

Lemma no_dangling_edge_when_references_resolve_witness :
  In (source (mkEdge "br0" "ovn-physnet1" false))
     (nodeIds (buildGraph scenarioInterfaces scenarioMappings scenarioCudns))
  /\ In (target (mkEdge "br0" "ovn-physnet1" false))
        (nodeIds (buildGraph scenarioInterfaces scenarioMappings scenarioCudns)).
Proof.
  refine (no_dangling_edge_when_references_resolve scenarioInterfaces
            scenarioMappings scenarioCudns scenario_references_resolve
            (mkEdge "br0" "ovn-physnet1" false) _).
  right. by left.
Defined.

(** * Properties of the message parsing of the attachment pass *)

Lemma allChars_nil P : allChars P "".
Proof. constructor. Qed.

Lemma allChars_cons P c s : allChars P (String c s) <-> P c /\ allChars P s.
Proof. unfold allChars. simpl. apply Forall_cons. Qed.

Lemma app_String c s t : String c s +:+ t = String c (s +:+ t).
Proof. reflexivity. Qed.

Lemma app_empty t : "" +:+ t = t.
Proof. reflexivity. Qed.

Lemma allChars_app P s t : allChars P (s +:+ t) <-> allChars P s /\ allChars P t.
Proof.
  induction s as [|c s IH].
  - rewrite app_empty.
    split; [intros H; split; [apply allChars_nil|done] | by intros [_ H]].
  - rewrite app_String, !allChars_cons, IH. tauto.
Qed.

Lemma allChars_impl (P Q : ascii -> Prop) s :
  (forall c, P c -> Q c) -> allChars P s -> allChars Q s.
Proof. intros H Hs. unfold allChars in *. by eapply Forall_impl. Qed.

Lemma lazyUntilClose_Some s g :
  Js.lazyUntilClose s = Some g ->
  (exists post, s = g +:+ String "]" post) /\ allChars capturable g.
Proof.
  revert g. induction s as [|c s IH]; intros g; simpl; [done|].
  destruct (Ascii.eqb_spec c "]") as [->|Hc].
  - intros [= <-]. split; [by exists s | apply allChars_nil].
  - destruct (Js.isLineTerminator c) eqn:Hlt; [done|].
    destruct (Js.lazyUntilClose s) as [g'|]; [|done]. simpl. intros [= <-].
    destruct (IH g' eq_refl) as [[post ->] Hall].
    split; [by exists post|]. apply allChars_cons. by repeat split.
Qed.

Lemma lazyUntilClose_capture g post :
  allChars capturable g -> Js.lazyUntilClose (g +:+ String "]" post) = Some g.
Proof.
  induction g as [|c g IH]; simpl; [done|].
  rewrite allChars_cons. intros [[Hc Hlt] Hg].
  destruct (Ascii.eqb_spec c "]"); [done|]. rewrite Hlt, (IH Hg). done.
Qed.

Lemma matchBracket_bracketed pre group post :
  allChars (fun c => c <> "["%char) pre -> allChars capturable group ->
  Js.matchBracket (pre +:+ String "[" (group +:+ String "]" post)) = Some group.
Proof.
  induction pre as [|c pre IH]; intros Hpre Hg; simpl.
  - by rewrite lazyUntilClose_capture.
  - apply allChars_cons in Hpre as [Hc Hpre].
    destruct (Ascii.eqb_spec c "["); [done|]. by apply IH.
Qed.

(** X7.  The bracket pattern captures the text between an opening bracket
    and the first closing bracket after it on the same line: a capture holds
    no closing bracket and no line break, and the message reads
    [pre [capture] post].  A message whose text before the first opening
    bracket holds none, followed by such a text and a closing bracket,
    captures exactly that text; a message without an opening bracket has no
    match. *)
Theorem bracket_capture :
  (forall message group,
     Js.matchBracket message = Some group ->
     (exists pre post, message = pre +:+ String "[" (group +:+ String "]" post))
     /\ allChars capturable group)
  /\ (forall pre group post,
        allChars (fun c => c <> "["%char) pre -> allChars capturable group ->
        Js.matchBracket (pre +:+ String "[" (group +:+ String "]" post))
        = Some group)
  /\ (forall message,
        allChars (fun c => c <> "["%char) message ->
        Js.matchBracket message = None).
Proof.
  split; [|split].
  - induction message as [|c m IH]; intros g; simpl; [done|].
    destruct (Ascii.eqb_spec c "[") as [->|Hc].
    + destruct (Js.lazyUntilClose m) as [g'|] eqn:Hlazy.
      * intros [= <-]. apply lazyUntilClose_Some in Hlazy as [[post ->] Hall].
        split; [by exists "", post | done].
      * intros H. destruct (IH g H) as [(pre & post & ->) Hall].
        split; [by exists (String "[" pre), post | done].
    + intros H. destruct (IH g H) as [(pre & post & ->) Hall].
      split; [by exists (String c pre), post | done].
  - intros pre g post Hpre Hg. by apply matchBracket_bracketed.
  - induction message as [|c m IH]; simpl; [done|].
    rewrite allChars_cons. intros [Hc Hm].
    destruct (Ascii.eqb_spec c "["); [done|]. by apply IH.
Qed.

Lemma bracket_capture_witness :
  Js.matchBracket "created in: [ns-b, ns-a] (2)" = Some "ns-b, ns-a".
Proof.
  apply (proj1 (proj2 bracket_capture) "created in: " "ns-b, ns-a" " (2)").
  - repeat (apply allChars_cons; split; [discriminate|]). apply allChars_nil.
  - repeat (apply allChars_cons; split; [split; [discriminate|reflexivity]|]).
    apply allChars_nil.
Defined.

Lemma split_pieces sep s :
  Forall (allChars (fun c => c <> sep)) (Js.split sep s)
  /\ length (Js.split sep s) = S (occurrences sep s).
Proof.
  induction s as [|c s [IHall IHlen]]; simpl.
  - split; [|done]. constructor; [apply allChars_nil|constructor].
  - destruct (Ascii.eqb_spec c sep) as [->|Hc].
    + split; [|simpl; lia]. constructor; [apply allChars_nil|done].
    + destruct (Js.split sep s) as [|piece pieces]; [simpl in IHlen; lia|].
      split; [|simpl in *; lia].
      apply Forall_cons in IHall as [Hpiece Hpieces].
      constructor; [|done]. apply allChars_cons. done.
Qed.

Lemma trimStart_suffix P s : allChars P s -> allChars P (Js.trimStart s).
Proof.
  induction s as [|c s IH]; simpl; [done|]. intros H.
  destruct (Js.isWhiteSpace c); [|done]. apply IH.
  by apply allChars_cons in H as [_ ?].
Qed.

Lemma trimEnd_prefix P s : allChars P s -> allChars P (Js.trimEnd s).
Proof.
  induction s as [|c s IH]; simpl; [done|]. rewrite allChars_cons.
  intros [Hc Hs]. specialize (IH Hs).
  destruct (Js.trimEnd s) as [|d k].
  - destruct (Js.isWhiteSpace c); [apply allChars_nil|].
    apply allChars_cons. split; [done|apply allChars_nil].
  - apply allChars_cons. done.
Qed.

Lemma trim_chars P s : allChars P s -> allChars P (Js.trim s).
Proof. intros H. by apply trimEnd_prefix, trimStart_suffix. Qed.

(** A string that does not begin with white space. *)
Lemma trimStart_clean s :
  match Js.trimStart s with
  | String c _ => Js.isWhiteSpace c = false
  | EmptyString => True
  end.
Proof.
  induction s as [|c s IH]; simpl; [done|].
  destruct (Js.isWhiteSpace c) eqn:Hc; [done|]. done.
Qed.

Lemma trimEnd_cons c s :
  Js.trimEnd (String c s) =
  match Js.trimEnd s with
  | EmptyString => if Js.isWhiteSpace c then EmptyString else String c EmptyString
  | kept => String c kept
  end.
Proof. reflexivity. Qed.

Lemma trimEnd_idem s : Js.trimEnd (Js.trimEnd s) = Js.trimEnd s.
Proof.
  induction s as [|c s IH]; [done|]. rewrite (trimEnd_cons c s).
  destruct (Js.trimEnd s) as [|d k] eqn:Hk.
  - destruct (Js.isWhiteSpace c) eqn:Hc; [done|].
    rewrite trimEnd_cons. simpl. by rewrite Hc.
  - rewrite trimEnd_cons, IH. done.
Qed.

Lemma trimStart_trimEnd s :
  Js.trimStart (Js.trimEnd (Js.trimStart s)) = Js.trimEnd (Js.trimStart s).
Proof.
  pose proof (trimStart_clean s) as Hclean.
  destruct (Js.trimStart s) as [|c t]; [done|].
  rewrite trimEnd_cons, Hclean.
  destruct (Js.trimEnd t) as [|d k]; cbn [Js.trimStart]; by rewrite Hclean.
Qed.

Lemma trim_idem s : Js.trim (Js.trim s) = Js.trim s.
Proof. unfold Js.trim. by rewrite trimStart_trimEnd, trimEnd_idem. Qed.

(** X8.  Every namespace the attachment pass extracts is trimmed and holds
    no comma, and there is one namespace more than there are commas in the
    captured text: empty pieces are kept, nothing is filtered or merged. *)
Theorem parsed_namespaces_are_trimmed_pieces group :
  Forall (fun ns => Js.trim ns = ns /\ allChars (fun c => c <> ","%char) ns)
         (parseNamespaces group)
  /\ length (parseNamespaces group) = S (occurrences "," group).
Proof.
  destruct (split_pieces "," group) as [Hall Hlen]. split.
  - rewrite (parseNamespaces_permutation group).
    apply List.Forall_forall. intros ns Hns.
    apply in_map_iff in Hns as (piece & <- & Hpiece).
    split; [apply trim_idem|]. apply trim_chars.
    by apply (proj1 (List.Forall_forall _ _) Hall).
  - by rewrite (Permutation_length (parseNamespaces_permutation group)), length_map.
Qed.

Lemma split_no_sep sep s : allChars (fun c => c <> sep) s -> Js.split sep s = [s].
Proof.
  induction s as [|c s IH]; simpl; [done|]. rewrite allChars_cons.
  intros [Hc Hs]. destruct (Ascii.eqb_spec c sep); [done|]. by rewrite (IH Hs).
Qed.

Lemma split_app_sep sep s rest :
  allChars (fun c => c <> sep) s ->
  Js.split sep (s +:+ String sep rest) = s :: Js.split sep rest.
Proof.
  induction s as [|c s IH]; simpl.
  - intros _. by rewrite Ascii.eqb_refl.
  - rewrite allChars_cons. intros [Hc Hs].
    destruct (Ascii.eqb_spec c sep); [done|]. by rewrite (IH Hs).
Qed.

Lemma split_join names first :
  Forall (allChars (fun c => c <> ","%char)) (first :: names) ->
  Js.split "," (Js.join ", " (first :: names)) = first :: map (String " ") names.
Proof.
  revert first. induction names as [|second names IH]; intros first Hall.
  - apply Forall_cons in Hall as [Hfirst _]. by apply split_no_sep.
  - apply Forall_cons in Hall as [Hfirst Hrest].
    change (Js.join ", " (first :: second :: names))
      with (first +:+ String "," (String " " (Js.join ", " (second :: names)))).
    rewrite split_app_sep by done. f_equal.
    cbn [Js.split]. change (Ascii.eqb " " ",") with false. cbv iota.
    by rewrite (IH second Hrest).
Qed.

Lemma trim_space s : Js.trim (String " " s) = Js.trim s.
Proof. reflexivity. Qed.

Lemma join_chars P sep names :
  allChars P sep -> Forall (allChars P) names -> allChars P (Js.join sep names).
Proof.
  intros Hsep. induction names as [|x names IH]; [intros _; apply allChars_nil|].
  intros Hall. apply Forall_cons in Hall as [Hx Hnames].
  destruct names as [|y names]; [done|].
  change (Js.join sep (x :: y :: names)) with (x +:+ sep +:+ Js.join sep (y :: names)).
  rewrite !allChars_app. auto.
Qed.

(** X9.  Round trip of the namespace list.  When the condition found for a
    CUDN has the message [pre [n1, n2, ...] post], where [pre] holds no
    opening bracket and the names are written the way a controller lists
    them, the attachment node carries exactly these names, sorted. *)
Theorem listed_namespaces_round_trip cudn condition pre names post
    (Hfound : findCondition cudn = Some condition)
    (Hmessage : Condition.message condition
                = Some (pre +:+ String "[" (Js.join ", " names +:+ String "]" post)))
    (Hpre : allChars (fun c => c <> "["%char) pre)
    (Hnames : Forall listedName names)
    (Hsome : Js.join ", " names <> "") :
  attachmentGroup cudn = Some (Js.join ", " names)
  /\ parseNamespaces (Js.join ", " names) = Js.sort names
  /\ nodesAdded (attachmentStep cudn) = [attachmentNode cudn (Js.sort names)].
Proof.
  assert (Hcap : allChars capturable (Js.join ", " names)).
  { apply join_chars.
    - repeat (apply allChars_cons; split; [split; [discriminate|reflexivity]|]).
      apply allChars_nil.
    - eapply Forall_impl; [exact Hnames|]. intros s [_ Hs].
      eapply allChars_impl; [|exact Hs]. by intros c [_ ?]. }
  assert (Hgroup : attachmentGroup cudn = Some (Js.join ", " names)).
  { eapply attachmentGroup_Some; [done|done| |done].
    by apply matchBracket_bracketed. }
  assert (Hparse : parseNamespaces (Js.join ", " names) = Js.sort names).
  { unfold parseNamespaces. f_equal.
    destruct names as [|first names]; [done|].
    rewrite split_join.
    - apply Forall_cons in Hnames as [[Hfirst _] Hrest]. simpl. rewrite Hfirst.
      f_equal. rewrite map_map. clear -Hrest.
      induction Hrest as [|x l [Hx _] _ IH]; [done|].
      simpl. rewrite trim_space, Hx. by f_equal.
    - eapply Forall_impl; [exact Hnames|]. intros s [_ Hs].
      eapply allChars_impl; [|exact Hs]. by intros c [? _]. }
  split; [done|]. split; [done|].
  by rewrite nodesAdded_attachmentStep, Hgroup, Hparse.
Qed.

Lemma listed_namespaces_round_trip_witness :
  nodesAdded (attachmentStep (cudnWithMessage "net-a" "created in [prod, dev] ok"))
  = [attachmentNode (cudnWithMessage "net-a" "created in [prod, dev] ok")
                    (Js.sort ["prod"; "dev"])].
Proof.
  apply (listed_namespaces_round_trip
           (cudnWithMessage "net-a" "created in [prod, dev] ok")
           (networkCreated "created in [prod, dev] ok")
           "created in " ["prod"; "dev"] " ok").
  - reflexivity.
  - reflexivity.
  - repeat (apply allChars_cons; split; [discriminate|]). apply allChars_nil.
  - repeat constructor; try reflexivity; try discriminate.
  - discriminate.
Defined.

(** * Further properties of the highlighter *)

Lemma pathBetween_subset edges edges' a b :
  (forall e, In e edges -> In e edges') ->
  pathBetween edges a b -> pathBetween edges' a b.
Proof.
  intros Hsub. apply rtc_subrel. intros x y (e & He & Hs & Ht).
  exists e. auto.
Qed.

(** Membership in the result of [getFlowPath], for the fuel it runs with. *)
Lemma getFlowPath_members edges start :
  exists result,
    getFlowPath edges start = Some result
    /\ forall y, y ∈ result <->
                 pathBetween edges y start \/ pathBetween edges start y
                 \/ exists e, In e edges /\ edge_id e = y
                              /\ (pathBetween edges (target e) start
                                  \/ pathBetween edges start (source e)).
Proof.
  destruct (getFlowPath_runs edges start) as (up & down & _ & _ & Hr & Hpath & _).
  by exists (path down).
Qed.

(** X10.  Adding edges never takes anything out of the highlighted set, and
    the set depends on the edges only as a collection: edge lists with the
    same members, in any order and multiplicity, give the same set. *)
Theorem highlight_grows_with_edges edges edges' start
    (Hsub : forall e, In e edges -> In e edges') :
  exists result result',
    getFlowPath edges start = Some result
    /\ getFlowPath edges' start = Some result'
    /\ result ⊆ result'
    /\ ((forall e, In e edges' -> In e edges) -> result = result').
Proof.
  destruct (getFlowPath_members edges start) as (r & Hr & Hin).
  destruct (getFlowPath_members edges' start) as (r' & Hr' & Hin').
  exists r, r'. split; [done|]. split; [done|].
  assert (Hmono : forall E E', (forall e, In e E -> In e E') ->
            forall y,
              (pathBetween E y start \/ pathBetween E start y
               \/ exists e, In e E /\ edge_id e = y
                            /\ (pathBetween E (target e) start
                                \/ pathBetween E start (source e))) ->
              (pathBetween E' y start \/ pathBetween E' start y
               \/ exists e, In e E' /\ edge_id e = y
                            /\ (pathBetween E' (target e) start
                                \/ pathBetween E' start (source e)))).
  { intros E E' HE y [H|[H|(e & He & Hid & [H|H])]].
    - left. by eapply pathBetween_subset.
    - right. left. by eapply pathBetween_subset.
    - right. right. exists e. split; [auto|]. split; [done|].
      left. by eapply pathBetween_subset.
    - right. right. exists e. split; [auto|]. split; [done|].
      right. by eapply pathBetween_subset. }
  split.
  - intros y. rewrite Hin, Hin'. by apply Hmono.
  - intros Hsup. apply set_eq. intros y. rewrite Hin, Hin'.
    split; by apply Hmono.
Qed.

Lemma highlight_grows_with_edges_witness :
  exists result result',
    getFlowPath [mkEdge "a" "b" false; mkEdge "b" "c" false] "a" = Some result
    /\ getFlowPath [mkEdge "b" "c" false; mkEdge "a" "b" false] "a" = Some result'
    /\ result = result'.
Proof.
  destruct (highlight_grows_with_edges
              [mkEdge "a" "b" false; mkEdge "b" "c" false]
              [mkEdge "b" "c" false; mkEdge "a" "b" false] "a")
    as (r & r' & Hr & Hr' & _ & Heq).
  - simpl. tauto.
  - exists r, r'. split; [exact Hr|]. split; [exact Hr'|].
    apply Heq. simpl. tauto.
Defined.

(** X11.  Every edge at the start node is highlighted, and a highlighted
    edge never hangs loose: when an edge is picked up by a traversal, its
    id, its source and its target are all in the result. *)
Theorem highlighted_edges_join_highlighted_nodes edges start e
    (He : In e edges)
    (Hpicked : pathBetween edges (target e) start
               \/ pathBetween edges start (source e)) :
  exists result,
    getFlowPath edges start = Some result
    /\ edge_id e ∈ result /\ source e ∈ result /\ target e ∈ result.
Proof.
  destruct (getFlowPath_members edges start) as (r & Hr & Hin).
  exists r. split; [done|].
  assert (Hedge : edgeTo edges (source e) (target e)) by by exists e.
  split; [|split]; apply Hin.
  - right. right. by exists e.
  - destruct Hpicked as [H|H]; [left|right; by left]. by eapply rtc_l.
  - destruct Hpicked as [H|H]; [by left|right; left]. by eapply rtc_r.
Qed.

Lemma highlighted_edges_join_highlighted_nodes_witness :
  exists result,
    getFlowPath [mkEdge "eth0" "br0" false] "br0" = Some result
    /\ "eth0-br0" ∈ result /\ "eth0" ∈ result /\ "br0" ∈ result.
Proof.
  apply (highlighted_edges_join_highlighted_nodes
           [mkEdge "eth0" "br0" false] "br0" (mkEdge "eth0" "br0" false)).
  - by left.
  - left. apply rtc_refl.
Defined.

(** X12.  Highlighting is mutual between nodes: for two ids that are not
    ids of edges, the first is in the set highlighted from the second
    exactly when the second is in the set highlighted from the first. *)
Theorem highlight_is_mutual edges x y
    (Hx : forall e, In e edges -> edge_id e <> x)
    (Hy : forall e, In e edges -> edge_id e <> y) :
  exists from_x from_y,
    getFlowPath edges x = Some from_x
    /\ getFlowPath edges y = Some from_y
    /\ (y ∈ from_x <-> x ∈ from_y).
Proof.
  destruct (getFlowPath_members edges x) as (rx & Hrx & Hinx).
  destruct (getFlowPath_members edges y) as (ry & Hry & Hiny).
  exists rx, ry. split; [done|]. split; [done|].
  rewrite Hinx, Hiny. split.
  - intros [H|[H|(e & He & Hid & _)]]; [tauto|tauto|]. by apply Hy in He.
  - intros [H|[H|(e & He & Hid & _)]]; [tauto|tauto|]. by apply Hx in He.
Qed.

Lemma highlight_is_mutual_witness :
  exists from_x from_y,
    getFlowPath [mkEdge "eth0" "br0" false] "eth0" = Some from_x
    /\ getFlowPath [mkEdge "eth0" "br0" false] "br0" = Some from_y
    /\ ("br0" ∈ from_x <-> "eth0" ∈ from_y).
Proof.
  apply (highlight_is_mutual [mkEdge "eth0" "br0" false] "eth0" "br0").
  - intros e [<-|[]]. discriminate.
  - intros e [<-|[]]. discriminate.
Defined.

(** * Properties of the interaction and of what is rendered *)

Lemma inPath_true ui x : inPath ui x = true <-> x ∈ highlightedPath ui.
Proof. unfold inPath. apply bool_decide_eq_true. Qed.

(** X13.  A click on a node always succeeds and turns the highlight on.  The
    clicked node keeps full opacity, every edge that has it as source or
    target is drawn blue, thick and animated, and a node whose id is not the
    id of an edge and that is joined to the clicked node by no directed path
    in either direction is dimmed to 0.3. *)
Theorem click_highlights_node_and_its_edges edges node ui :
  exists ui',
    onNodeClick edges node ui = Some ui'
    /\ isHighlightActive ui' = true
    /\ popoverVisible ui' = true
    /\ nodeOpacity ui' node = 1%Q
    /\ (forall e, In e edges -> source e = id node \/ target e = id node ->
                  stroke (edgeView ui' e) = "#0066CC"
                  /\ strokeWidth (edgeView ui' e) = 3%Z
                  /\ animated (shown (edgeView ui' e)) = true)
    /\ (forall other : Node,
          (forall e, In e edges -> edge_id e <> id other) ->
          ~ pathBetween edges (id node) (id other) ->
          ~ pathBetween edges (id other) (id node) ->
          nodeOpacity ui' other = (3 # 10)%Q).
Proof.
  destruct (getFlowPath_members edges (id node)) as (r & Hr & Hin).
  unfold onNodeClick. rewrite Hr. eexists. split; [reflexivity|].
  split; [done|]. split; [by apply bool_decide_eq_true_2; eauto|].
  assert (Hhas : forall x, inPath {| activeNode := Some (originalData node);
                                     anchorElement := Some (id node);
                                     highlightedPath := r;
                                     isHighlightActive := true |} x = true
                           <-> x ∈ r) by (intros x; apply inPath_true).
  split; [|split].
  - unfold nodeOpacity. simpl.
    rewrite (proj2 (Hhas (id node))); [done|]. apply Hin. left. apply rtc_refl.
  - intros e He Hend.
    assert (Hid : edge_id e ∈ r).
    { apply Hin. right. right. exists e. split; [done|]. split; [done|].
      destruct Hend as [<-|<-]; [right|left]; apply rtc_refl. }
    unfold edgeView. simpl. by rewrite (proj2 (Hhas (edge_id e)) Hid).
  - intros other Hnoid Hto Hfrom. unfold nodeOpacity. simpl.
    destruct (inPath _ (id other)) eqn:Hother; [|done].
    apply Hhas, Hin in Hother.
    destruct Hother as [H|[H|(e & He & Hid & _)]]; [done|done|].
    by apply Hnoid in He.
Qed.

Lemma click_highlights_node_and_its_edges_witness :
  exists ui',
    onNodeClick [mkEdge "eth0" "br0" false] (interfaceNode [] eth0) initialUi
    = Some ui'
    /\ stroke (edgeView ui' (mkEdge "eth0" "br0" false)) = "#0066CC".
Proof.
  destruct (click_highlights_node_and_its_edges
              [mkEdge "eth0" "br0" false] (interfaceNode [] eth0) initialUi)
    as (ui' & Hclick & _ & _ & _ & Hedges & _).
  exists ui'. split; [exact Hclick|].
  apply (Hedges (mkEdge "eth0" "br0" false)); [by left | by left].
Defined.

(** X14.  A click on the background brings any state back to the initial
    one: every node is drawn at full opacity and every edge grey, thin and
    not animated, the [cudn -> attachment] edges included, whose own
    [animated] flag is never shown.  Closing the popover only hides it: the
    highlight and all opacities stay as they are. *)
Theorem background_click_resets ui :
  handleBackgroundClick ui = initialUi
  /\ (forall node, nodeOpacity (handleBackgroundClick ui) node = 1%Q)
  /\ (forall edge, edgeView (handleBackgroundClick ui) edge = neutralView edge)
  /\ (forall interfaces bridgeMappings cudns view,
        In view (map (edgeView (handleBackgroundClick ui))
                     (initialEdges (buildGraph interfaces bridgeMappings cudns))) ->
        animated (shown view) = false)
  /\ popoverVisible (handlePopoverClose ui) = false
  /\ (forall node, nodeOpacity (handlePopoverClose ui) node = nodeOpacity ui node)
  /\ (forall edge, edgeView (handlePopoverClose ui) edge = edgeView ui edge).
Proof.
  split; [done|]. split; [done|]. split; [done|]. split.
  - intros interfaces bridgeMappings cudns view Hview.
    apply in_map_iff in Hview as (e & <- & _). done.
  - split; [|done]. apply bool_decide_eq_false_2. by intros [? ?].
Qed.

Lemma background_click_resets_witness :
  animated (shown (edgeView (handleBackgroundClick initialUi)
                            (mkEdge "cudn-net-a" "attachment-net-a" true)))
  = false.
Proof.
  destruct (background_click_resets initialUi) as (_ & _ & _ & H & _).
  apply (H scenarioInterfaces scenarioMappings scenarioCudns
           (edgeView (handleBackgroundClick initialUi)
                     (mkEdge "cudn-net-a" "attachment-net-a" true))).
  apply in_map. vm_compute. tauto.
Defined.

(** X15.  A click on an attachment node opens the popover with the node
    label as header, the namespaces joined by [", "], the state [N/A], and
    the type [unknown]: the node object's own [type] is [default], so the
    [attachment] branch of the test in [onNodeClick] is never taken. *)
Theorem popover_of_attachment_node edges cudn namespaces ui :
  exists ui',
    onNodeClick edges (attachmentNode cudn namespaces) ui = Some ui'
    /\ popoverHeader ui' = Some (attachmentLabel namespaces)
    /\ popoverType ui' = "unknown"
    /\ popoverState ui' = "N/A"
    /\ popoverNamespaces ui' = Some (Js.join ", " namespaces).
Proof.
  destruct (getFlowPath_members edges (id (attachmentNode cudn namespaces)))
    as (r & Hr & _).
  unfold onNodeClick. rewrite Hr. eexists. split; [reflexivity|].
  repeat split.
Qed.

(** X16.  The popover of a node that stands for a resource shows the
    resource, not the node.  For an interface with a name and a type it shows
    the name and the raw interface type, also when the node is styled as
    [bridge] or [logical]; for a mapping with a non-empty localnet, the
    localnet and [OVN Localnet]; for a CUDN with a name, the name, [CUDN]
    and the topology, or [N/A] when there is none. *)
Theorem popover_of_resource_nodes edges ui :
  (forall interfaces iface,
     Iface.name iface <> "" -> Iface.type iface <> "" ->
     exists ui',
       onNodeClick edges (interfaceNode interfaces iface) ui = Some ui'
       /\ popoverHeader ui' = Some (Iface.name iface)
       /\ popoverType ui' = Iface.type iface
       /\ popoverState ui' = orElse (Some (Iface.state iface)) "N/A")
  /\ (forall mapping,
        Mapping.localnet mapping <> "" ->
        exists ui',
          onNodeClick edges (mappingNode mapping) ui = Some ui'
          /\ popoverHeader ui' = Some (Mapping.localnet mapping)
          /\ popoverType ui' = "OVN Localnet")
  /\ (forall cudn,
        cudnName cudn <> "" ->
        exists ui',
          onNodeClick edges (cudnNode cudn) ui = Some ui'
          /\ popoverHeader ui' = Some (cudnName cudn)
          /\ popoverType ui' = "CUDN"
          /\ popoverState ui'
             = orElse (Js.chain (Js.chain (Cudn.spec cudn) Cudn.network)
                                Cudn.topology) "N/A").
Proof.
  split; [|split].
  - intros interfaces iface Hname Htype.
    destruct (getFlowPath_members edges (id (interfaceNode interfaces iface)))
      as (r & Hr & _).
    unfold onNodeClick. rewrite Hr. eexists. split; [reflexivity|].
    apply String.eqb_neq in Hname, Htype.
    unfold popoverHeader, popoverType, popoverState, orElse, Js.or. simpl.
    rewrite ?Hname, ?Htype. simpl. rewrite ?Hname, ?Htype. simpl.
    split; [done|]. split; [done|].
    destruct (String.eqb (Iface.state iface) "") eqn:Hstate; simpl;
      by rewrite ?Hstate.
  - intros mapping Hlocalnet.
    destruct (getFlowPath_members edges (id (mappingNode mapping))) as (r & Hr & _).
    unfold onNodeClick. rewrite Hr. eexists. split; [reflexivity|].
    apply String.eqb_neq in Hlocalnet.
    unfold popoverHeader, popoverType, orElse, Js.or. simpl.
    rewrite ?Hlocalnet. simpl. by rewrite ?Hlocalnet.
  - intros cudn Hname.
    destruct (getFlowPath_members edges (id (cudnNode cudn))) as (r & Hr & _).
    unfold onNodeClick. rewrite Hr. eexists. split; [reflexivity|].
    apply String.eqb_neq in Hname.
    unfold popoverHeader, popoverType, popoverState, orElse, Js.or. simpl.
    rewrite ?Hname. simpl. by rewrite ?Hname.
Qed.

Lemma popover_of_resource_nodes_witness :
  exists ui',
    onNodeClick [] (interfaceNode [br0_internal_port] br0_internal_port) initialUi
    = Some ui'
    /\ popoverType ui' = "ovs-interface"
    /\ style (interfaceNode [br0_internal_port] br0_internal_port)
       = styleOf "bridge".
Proof.
  destruct (proj1 (popover_of_resource_nodes [] initialUi)
              [br0_internal_port] br0_internal_port)
    as (ui' & Hclick & _ & Htype & _); [discriminate|discriminate|].
  exists ui'. split; [exact Hclick|]. split; [exact Htype|reflexivity].
Defined.

(** * Properties of the SVG variant *)

Lemma nodePositions_columns interfaces bridgeMappings cudns :
  Svg.nodePositions interfaces bridgeMappings cudns =
  Svg.placeColumn (Svg.padding + Svg.colSpacing * 5) 0
    (map (fun c => "cudn-" +:+ cudnName c) cudns)
    (Svg.placeColumn (Svg.padding + Svg.colSpacing * 4) 0
       (map (fun m => "ovn-" +:+ Mapping.localnet m) bridgeMappings)
       (Svg.placeColumn (Svg.padding + Svg.colSpacing * 3) 0
          (map Iface.name (SvgView.logicalInterfaces interfaces))
          (Svg.placeColumn (Svg.padding + Svg.colSpacing * 2) 0
             (map Iface.name (SvgView.bridgeInterfaces interfaces))
             (Svg.placeColumn (Svg.padding + Svg.colSpacing * 1) 0
                (map Iface.name (SvgView.bondInterfaces interfaces))
                (Svg.placeColumn Svg.padding 0
                   (map Iface.name (SvgView.ethInterfaces interfaces)) ∅))))).
Proof. reflexivity. Qed.

Lemma placeColumn_Forall (P : Z * Z -> Prop) x names :
  forall index0 pos,
    map_Forall (fun _ p => P p) pos ->
    (forall j, (0 <= j < Z.of_nat (length names))%Z ->
               P (x, (Svg.padding + (index0 + j) * (Svg.itemHeight + 20))%Z)) ->
    map_Forall (fun _ p => P p) (Svg.placeColumn x index0 names pos).
Proof.
  induction names as [|n names IH]; intros index0 pos Hpos Hnew; simpl; [done|].
  apply IH.
  - apply map_Forall_insert_2; [|done].
    specialize (Hnew 0%Z). rewrite Z.add_0_r in Hnew. apply Hnew.
    simpl. lia.
  - intros j Hj. replace (index0 + 1 + j)%Z with (index0 + (j + 1))%Z by lia.
    apply Hnew. simpl length. lia.
Qed.

Lemma nodePositions_onGrid interfaces bridgeMappings cudns :
  map_Forall (fun _ p => SvgView.onGrid (SvgView.maxRows interfaces bridgeMappings cudns) p)
             (Svg.nodePositions interfaces bridgeMappings cudns).
Proof.
  rewrite nodePositions_columns.
  assert (Hcol : forall (k : Z) names pos,
            (0 <= k <= 5)%Z ->
            (Z.of_nat (length names) <= SvgView.maxRows interfaces bridgeMappings cudns)%Z ->
            map_Forall (fun _ p => SvgView.onGrid (SvgView.maxRows interfaces bridgeMappings cudns) p) pos ->
            map_Forall (fun _ p => SvgView.onGrid (SvgView.maxRows interfaces bridgeMappings cudns) p)
                       (Svg.placeColumn (Svg.padding + Svg.colSpacing * k) 0 names pos)).
  { intros k names pos Hk Hlen Hpos. apply placeColumn_Forall; [done|].
    intros j Hj. exists k, j. split; [done|]. split; [lia|]. by rewrite Z.add_0_l. }
  unfold SvgView.maxRows, SvgView.len in *.
  replace Svg.padding with (Svg.padding + Svg.colSpacing * 0)%Z at 6 by reflexivity.
  repeat (apply Hcol; [lia|rewrite length_map; lia|]).
  apply map_Forall_empty.
Qed.

(** X18.  Every box the SVG variant places in a column lies on the canvas:
    inside its width of 1400 and, with at least 220 to spare, above its
    bottom, so a column never reaches into the band of the other interfaces
    that starts 140 above the bottom. *)
Theorem column_boxes_fit_the_canvas interfaces bridgeMappings cudns key x y
    (Hplaced : Svg.nodePositions interfaces bridgeMappings cudns !! key = Some (x, y)) :
  (0 <= x /\ x + Svg.itemWidth <= SvgView.width)%Z
  /\ (0 <= y
      /\ y + Svg.itemHeight
         <= SvgView.calculatedHeight interfaces bridgeMappings cudns - 220)%Z
  /\ (600 <= SvgView.calculatedHeight interfaces bridgeMappings cudns)%Z.
Proof.
  pose proof (nodePositions_onGrid interfaces bridgeMappings cudns key (x, y) Hplaced)
    as (k & i & Hk & Hi & Hp).
  injection Hp as -> ->.
  unfold SvgView.calculatedHeight, SvgView.width, Svg.padding, Svg.colSpacing,
    Svg.itemWidth, Svg.itemHeight in *.
  lia.
Qed.

Lemma column_boxes_fit_the_canvas_witness :
  (0 <= 50 /\ 50 + Svg.itemWidth <= SvgView.width)%Z.
Proof.
  apply (column_boxes_fit_the_canvas
           [plainIface "eth0" "ethernet" None] [] [] "eth0" 50 50).
  reflexivity.
Defined.

(** X19.  The boxes of the other interfaces are laid out four to a row below
    the columns.  Each fits the canvas width and starts in the band 140 above
    the bottom, but only the first row fits the height: from the fifth other
    interface on, the box ends below the bottom of the canvas. *)
Theorem other_boxes_beyond_the_first_row_overflow interfaces bridgeMappings cudns
    index x y
    (Hindex : (0 <= index)%Z)
    (Hbox : SvgView.otherBox interfaces bridgeMappings cudns index = (x, y)) :
  (0 <= x /\ x + Svg.itemWidth <= SvgView.width)%Z
  /\ (SvgView.calculatedHeight interfaces bridgeMappings cudns - 140 <= y)%Z
  /\ ((y + Svg.itemHeight <= SvgView.calculatedHeight interfaces bridgeMappings cudns)%Z
      <-> (index < 4)%Z).
Proof.
  unfold SvgView.otherBox in Hbox. injection Hbox as <- <-.
  unfold SvgView.width, Svg.padding, Svg.itemWidth, Svg.itemHeight.
  pose proof (Z.mod_pos_bound index 4 ltac:(lia)) as Hcol.
  pose proof (Z.div_pos index 4 Hindex ltac:(lia)) as Hrow.
  split; [lia|]. split; [lia|]. split.
  - intros Hfit. assert (index / 4 = 0)%Z as Hzero by lia.
    apply Z.div_small_iff in Hzero; lia.
  - intros Hsmall. rewrite Z.div_small by lia. lia.
Qed.

Lemma other_boxes_beyond_the_first_row_overflow_witness :
  ~ (snd (SvgView.otherBox [] [] [] 4) + Svg.itemHeight
     <= SvgView.calculatedHeight [] [] [])%Z.
Proof.
  destruct (other_boxes_beyond_the_first_row_overflow [] [] [] 4
              (fst (SvgView.otherBox [] [] [] 4)) (snd (SvgView.otherBox [] [] [] 4)))
    as (_ & _ & Hfit); [lia|reflexivity|].
  intros H. apply Hfit in H. lia.
Defined.

Lemma filter_five_way {A} (p1 p2 p3 p4 p5 : A -> bool) (l : list A) :
  (forall a, (p1 a, p2 a, p3 a, p4 a, p5 a) = (true, false, false, false, false)
             \/ (p1 a, p2 a, p3 a, p4 a, p5 a) = (false, true, false, false, false)
             \/ (p1 a, p2 a, p3 a, p4 a, p5 a) = (false, false, true, false, false)
             \/ (p1 a, p2 a, p3 a, p4 a, p5 a) = (false, false, false, true, false)
             \/ (p1 a, p2 a, p3 a, p4 a, p5 a) = (false, false, false, false, true)) ->
  l ≡ₚ List.filter p1 l ++ List.filter p2 l ++ List.filter p3 l
       ++ List.filter p4 l ++ List.filter p5 l.
Proof.
  intros Hone. induction l as [|a l IH]; [done|]. simpl.
  destruct (Hone a) as [H|[H|[H|[H|H]]]]; injection H as -> -> -> -> ->;
    simpl; rewrite <- ?Permutation_middle; by apply perm_skip.
Qed.

(** X20.  The SVG variant draws every interface in exactly one group: the
    ethernet, bond, bridge, logical and other interfaces together are a
    rearrangement of the interface list. *)
Theorem svg_groups_partition_the_interfaces interfaces :
  interfaces ≡ₚ SvgView.ethInterfaces interfaces
                ++ SvgView.bondInterfaces interfaces
                ++ SvgView.bridgeInterfaces interfaces
                ++ SvgView.logicalInterfaces interfaces
                ++ SvgView.otherInterfaces interfaces.
Proof.
  apply filter_five_way. intros i.
  unfold Svg.ofType, SvgView.isLogical, SvgView.isOther, Svg.isBridge,
    Svg.ofType. simpl.
  destruct (String.eqb_spec (Iface.type i) "ethernet") as [->|He]; [simpl; tauto|].
  destruct (String.eqb_spec (Iface.type i) "bond") as [->|Hb]; [simpl; tauto|].
  destruct (String.eqb_spec (Iface.type i) "linux-bridge") as [->|Hl]; [simpl; tauto|].
  destruct (String.eqb_spec (Iface.type i) "ovs-bridge") as [->|Ho]; [simpl; tauto|].
  destruct (String.eqb_spec (Iface.type i) "ovs-interface") as [Hi|Hi]; simpl.
  - destruct (bool_decide _ && negb _); simpl; tauto.
  - tauto.
Qed.

Lemma guarded_Some pos v idOf k line :
  Svg.guarded pos v idOf k = Some line ->
  exists s, v = Some s /\ s <> "" /\ is_Some (Svg.getPosition pos (idOf s))
            /\ k s = Some line.
Proof.
  unfold Svg.guarded. destruct v as [s|]; [|done].
  destruct (Js.truthy (Some s)) eqn:Ht; [|done]. simpl.
  case_bool_decide as Hpos; [|done]. intros Hk. exists s.
  split; [done|]. split; [|done]. intros ->. done.
Qed.

Lemma renderConnector_Some pos a b line :
  Svg.renderConnector pos a b = Some line ->
  Svg.startNode line = a /\ Svg.endNode line = b.
Proof.
  unfold Svg.renderConnector.
  destruct (Svg.getPosition pos a) as [start|]; [|done].
  destruct (Svg.getPosition pos b) as [end_|]; [|done]. by intros [= <-].
Qed.

(** X21.  Every connector the SVG variant draws stands for an edge the React
    Flow variant builds from the same input.  Interface and bridge mapping
    connectors run in the direction of the built edge; a CUDN connector runs
    from the [cudn-] box to the [ovn-] box, against the built
    [ovn -> cudn] edge. *)
Theorem svg_connectors_follow_built_edges interfaces bridgeMappings cudns line
    (Hdrawn : In (Some line) (Svg.connectors interfaces bridgeMappings cudns)) :
  let built := initialEdges (buildGraph interfaces bridgeMappings cudns) in
  (In (mkEdge (Svg.startNode line) (Svg.endNode line) false) built
   /\ (In (Svg.startNode line) (map Iface.name interfaces)
       \/ In (Svg.endNode line)
             (map (fun m => "ovn-" +:+ Mapping.localnet m) bridgeMappings)))
  \/ (In (mkEdge (Svg.endNode line) (Svg.startNode line) false) built
      /\ In (Svg.startNode line) (map (fun c => "cudn-" +:+ cudnName c) cudns)).
Proof.
  cbv zeta. unfold Svg.connectors in Hdrawn. cbv zeta in Hdrawn.
  rewrite !in_app_iff, !in_map_iff in Hdrawn.
  destruct Hdrawn as [(i & Hi & Hin)|[(m & Hm & Hin)|(c & Hc & Hin)]].
  - apply guarded_Some in Hi as (s & Hs & Hne & _ & Hline).
    apply renderConnector_Some in Hline as [-> ->].
    left. split; [|left; by apply in_map].
    apply buildGraph_edge_In. left. exists i. split; [done|]. left.
    rewrite Hs, edgeWhen_Some by done. by left.
  - apply guarded_Some in Hm as (s & Hs & Hne & _ & Hline).
    apply renderConnector_Some in Hline as [-> ->].
    left. split.
    + apply buildGraph_edge_In. right. left. exists m. split; [done|].
      rewrite Hs, edgeWhen_Some by done. by left.
    + right. by apply (in_map (fun m => "ovn-" +:+ Mapping.localnet m)).
  - apply guarded_Some in Hc as (s & Hs & Hne & _ & Hline).
    apply renderConnector_Some in Hline as [-> ->].
    right. split.
    + apply buildGraph_edge_In. right. right. left. exists c. split; [done|].
      rewrite Hs, edgeWhen_Some by done. by left.
    + by apply (in_map (fun c => "cudn-" +:+ cudnName c)).
Qed.

Lemma svg_connectors_follow_built_edges_witness :
  (In (mkEdge "cudn-net-a" "ovn-physnet1" false)
      (initialEdges (buildGraph scenarioInterfaces scenarioMappings scenarioCudns))
   /\ (In "cudn-net-a" (map Iface.name scenarioInterfaces)
       \/ In "ovn-physnet1"
             (map (fun m => "ovn-" +:+ Mapping.localnet m) scenarioMappings)))
  \/ (In (mkEdge "ovn-physnet1" "cudn-net-a" false)
         (initialEdges (buildGraph scenarioInterfaces scenarioMappings scenarioCudns))
      /\ In "cudn-net-a" (map (fun c => "cudn-" +:+ cudnName c) scenarioCudns)).
Proof.
  apply (svg_connectors_follow_built_edges scenarioInterfaces scenarioMappings
           scenarioCudns
           {| Svg.key := "cudn-net-a-ovn-physnet1";
              Svg.x1 := Some 1310%Z; Svg.y1 := Some 90%Z;
              Svg.x2 := Some 930%Z; Svg.y2 := Some 90%Z;
              Svg.startNode := "cudn-net-a"; Svg.endNode := "ovn-physnet1" |}).
  vm_compute. tauto.
Defined.

Lemma placeColumn_notin x names :
  forall index0 pos key,
    ~ In key names -> Svg.placeColumn x index0 names pos !! key = pos !! key.
Proof.
  induction names as [|n names IH]; intros index0 pos key Hkey; simpl; [done|].
  rewrite IH by (intros H; apply Hkey; by right).
  apply lookup_insert_ne. intros ->. apply Hkey. by left.
Qed.

Lemma placeColumn_lookup x names :
  forall index0 pos (i : nat) key,
    NoDup names -> names !! i = Some key ->
    Svg.placeColumn x index0 names pos !! key
    = Some (x, (Svg.padding + (index0 + Z.of_nat i) * (Svg.itemHeight + 20))%Z).
Proof.
  induction names as [|n names IH]; intros index0 pos i key Hnd Hi; [done|].
  apply NoDup_cons in Hnd as [Hn Hnd]. simpl. destruct i as [|i].
  - injection Hi as ->. rewrite placeColumn_notin by by rewrite <- list_elem_of_In.
    rewrite lookup_insert_eq. do 3 f_equal. lia.
  - rewrite (IH _ _ i key Hnd Hi). do 3 f_equal. lia.
Qed.

(** X22.  In the two synthesized columns the rows follow the input order:
    with distinct localnets, the box of the mapping at index [i] is placed in
    column 4 on row [i], and with distinct CUDN names the box of the CUDN at
    index [i] in column 5 on row [i].  No later placement moves them. *)
Theorem synthesized_columns_follow_input_order interfaces bridgeMappings cudns :
  (NoDup (map Mapping.localnet bridgeMappings) ->
   forall (i : nat) m,
     bridgeMappings !! i = Some m ->
     Svg.nodePositions interfaces bridgeMappings cudns
       !! ("ovn-" +:+ Mapping.localnet m)
     = Some (930, 50 + 100 * Z.of_nat i)%Z)
  /\ (NoDup (map cudnName cudns) ->
      forall (i : nat) c,
        cudns !! i = Some c ->
        Svg.nodePositions interfaces bridgeMappings cudns
          !! ("cudn-" +:+ cudnName c)
        = Some (1150, 50 + 100 * Z.of_nat i)%Z).
Proof.
  rewrite nodePositions_columns. split.
  - intros Hnd i m Hi. rewrite placeColumn_notin.
    + rewrite (placeColumn_lookup _ _ _ _ i).
      * unfold Svg.padding, Svg.colSpacing, Svg.itemHeight. do 3 f_equal. lia.
      * by apply (NoDup_map_prefix "ovn-").
      * rewrite list_lookup_fmap, Hi. done.
    + intros Hin. apply in_map_iff in Hin as (c & Hc & _). discriminate Hc.
  - intros Hnd i c Hi. rewrite (placeColumn_lookup _ _ _ _ i).
    + unfold Svg.padding, Svg.colSpacing, Svg.itemHeight. do 3 f_equal. lia.
    + by apply (NoDup_map_prefix "cudn-").
    + rewrite list_lookup_fmap, Hi. done.
Qed.

Lemma synthesized_columns_follow_input_order_witness :
  Svg.nodePositions scenarioInterfaces scenarioMappings scenarioCudns
    !! "cudn-net-a"
  = Some (1150, 50 + 100 * Z.of_nat 0)%Z.
Proof.
  apply (proj2 (synthesized_columns_follow_input_order scenarioInterfaces
                  scenarioMappings scenarioCudns)
               ltac:(repeat constructor; set_solver) 0%nat
               (localnetCudn "net-a" (Some "physnet1") None
                  [networkCreated "created in following namespaces: [ns-b, ns-a]"])).
  reflexivity.
Defined.

(** * Properties of the pod pages *)


(** X24.  The pod details card shows at most one block, and nothing at all
    exactly when the watch has loaded without error and without a pod. *)
Theorem pod_details_blank_without_pod pod loaded loadError :
  (length (Pods.podDetailsBody pod loaded loadError) <= 1)%nat
  /\ (Pods.podDetailsBody pod loaded loadError = []
      <-> loaded = true /\ loadError = None /\ pod = None)
  /\ (loaded = false -> Pods.podDetailsBody pod loaded loadError = [Pods.Spinner]).
Proof.
  unfold Pods.podDetailsBody.
  destruct loaded, loadError as [msg|], pod as [p|]; simpl;
    (split; [lia|]); (split; [|done]); (split; [done|]);
    by intros (? & ? & ?).
Qed.

Lemma pod_details_blank_without_pod_witness :
  Pods.podDetailsBody None false None = [Pods.Spinner].
Proof.
  apply (proj2 (proj2 (pod_details_blank_without_pod None false None))).
  reflexivity.
Defined.
